(** * resize_image.py: batch image resizing

    A shallow embedding of [src/resize_image.py] and the properties of its
    three parts: the scaling arithmetic of [resize_image], the directory
    scan of [resize_image_dir], and the result-collection loop.

    Python values are modelled as follows.
    - [int] is [Z]; [float] is IEEE 754 binary64, through the executable
      specification [SpecFloat] of the standard library;
    - exceptions are an inductive type, a raising computation returns
      [Raise e];
    - the file system is a finite map from path strings to nodes;
    - [print] and the calls into OpenCV append to an event trace. *)

From Stdlib Require Import ZArith QArith Qpower Qabs Lqa Lia Ascii String.
From Stdlib Require Import Floats.SpecFloat.
From stdpp Require Import gmap strings list fin_maps.

Local Open Scope Z_scope.

(** ** Exceptions and results *)

Inductive exn : Type :=
  | AttributeError      (* [None.shape] *)
  | ZeroDivisionError   (* float division by zero *)
  | OverflowError       (* int too large for a float, [int(inf)] *)
  | ValueError          (* [int(nan)], [int('x')], tuple unpacking *)
  | FileNotFoundError   (* [os.makedirs('')] *)
  | FileExistsError     (* [os.makedirs] on a regular file *)
  | CvError.            (* [cv2.error] *)

Inductive result (A : Type) : Type :=
  | Ok (a : A)
  | Raise (e : exn).
Arguments Ok {A} a.
Arguments Raise {A} e.

#[global] Instance result_ret : MRet result := fun _ a => Ok a.
#[global] Instance result_bind : MBind result := fun _ _ f r =>
  match r with
  | Ok a => f a
  | Raise e => Raise e
  end.

(** ** Python floats *)

Module PyFloat.

Definition prec : Z := 53.
Definition emax : Z := 1024.

Definition float := spec_float.

(** [float(n)] and the implicit conversion of an [int] operand. *)
Definition of_int (n : Z) : result float :=
  match binary_normalize prec emax n 0 false with
  | S754_infinity _ => Raise OverflowError
  | f => Ok f
  end.

Definition is_zero (x : float) : bool :=
  match x with S754_zero _ => true | _ => false end.

(** [x / y] on floats. *)
Definition truediv (x y : float) : result float :=
  if is_zero y then Raise ZeroDivisionError else Ok (SFdiv prec emax x y).

(** [x * y] on floats. *)
Definition mul (x y : float) : float := SFmul prec emax x y.

(** [int(x)]: truncation toward zero. *)
Definition to_int (x : float) : result Z :=
  match x with
  | S754_zero _ => Ok 0
  | S754_infinity _ => Raise OverflowError
  | S754_nan => Raise ValueError
  | S754_finite s m e =>
      Ok (cond_Zopp s (if 0 <=? e then Z.pos m * 2 ^ e
                       else Z.pos m / 2 ^ (- e)))
  end.

End PyFloat.

(** ** The scaling arithmetic of [resize_image] (lines 42-49)

    [w] and [h] are the decoded image's width and height. *)

Definition scale (w h larger_edge : Z) : result (Z * Z) :=
  fw ← PyFloat.of_int w;
  fh ← PyFloat.of_int h;
  ratio ← PyFloat.truediv fw fh;
  if w >? h then
    let w := larger_edge in
    fw ← PyFloat.of_int w;
    q ← PyFloat.truediv fw ratio;
    h ← PyFloat.to_int q;
    Ok (w, h)
  else
    let h := larger_edge in
    fh ← PyFloat.of_int h;
    w ← PyFloat.to_int (PyFloat.mul fh ratio);
    Ok (w, h).

(** ** Path functions of [os.path] (POSIX flavour) *)

Fixpoint rfind_from (c : ascii) (s : string) (i : Z) : Z :=
  match s with
  | EmptyString => -1
  | String a s' =>
      let r := rfind_from c s' (i + 1) in
      if r =? -1 then (if Ascii.eqb a c then i else -1) else r
  end.

(** [s.rfind(c)]: the index of the last [c] in [s], or [-1]. *)
Definition rfind (c : ascii) (s : string) : Z := rfind_from c s 0.

Definition char_at (s : string) (i : Z) : option ascii :=
  if i <? 0 then None else String.get (Z.to_nat i) s.

(** [s[:i]] and [s[i:]] for [0 <= i]. *)
Definition str_take (i : Z) (s : string) : string :=
  String.substring 0 (Z.to_nat i) s.
Definition str_drop (i : Z) (s : string) : string :=
  String.substring (Z.to_nat i) (String.length s - Z.to_nat i) s.

(** The loop of [genericpath._splitext] that skips leading dots: [true]
    when a character other than a dot stands before [dotIndex]. *)
Fixpoint splitext_loop (p : string) (filenameIndex dotIndex : Z) (fuel : nat) : bool :=
  match fuel with
  | O => false
  | S fuel' =>
      if filenameIndex <? dotIndex then
        match char_at p filenameIndex with
        | Some "."%char => splitext_loop p (filenameIndex + 1) dotIndex fuel'
        | _ => true
        end
      else false
  end.

Definition splitext (p : string) : string * string :=
  let sepIndex := rfind "/" p in
  let dotIndex := rfind "." p in
  if (dotIndex >? sepIndex)
     && splitext_loop p (sepIndex + 1) dotIndex (Z.to_nat (dotIndex - sepIndex))
  then (str_take dotIndex p, str_drop dotIndex p)
  else (p, "").

Definition startswith_char (c : ascii) (s : string) : bool :=
  match s with
  | String a _ => Ascii.eqb a c
  | EmptyString => false
  end.

Fixpoint endswith_char (c : ascii) (s : string) : bool :=
  match s with
  | EmptyString => false
  | String a EmptyString => Ascii.eqb a c
  | String _ s' => endswith_char c s'
  end.

(** [posixpath.join(a, b)]. *)
Definition join (a b : string) : string :=
  if startswith_char "/" b then b
  else if (String.eqb a "") || endswith_char "/" a then a +:+ b
  else a +:+ "/" +:+ b.

Fixpoint rstrip_char (c : ascii) (s : string) : string :=
  match s with
  | EmptyString => EmptyString
  | String a s' =>
      match rstrip_char c s' with
      | EmptyString => if Ascii.eqb a c then EmptyString else String a EmptyString
      | t => String a t
      end
  end.

(** [posixpath.dirname(p)]. *)
Definition dirname (p : string) : string :=
  let i := rfind "/" p + 1 in
  let head := str_take i p in
  match rstrip_char "/" head with
  | EmptyString => head          (* empty, or slashes only *)
  | stripped => stripped
  end.

(** [int(s)] for a decimal literal: optional surrounding whitespace, an
    optional sign, digits with single underscores between them. *)
Definition is_space (c : ascii) : bool :=
  let n := N_of_ascii c in ((9 <=? n) && (n <=? 13))%N || (n =? 32)%N.

Definition digit_of (c : ascii) : option Z :=
  let n := Z.of_N (N_of_ascii c) in
  if (48 <=? n) && (n <=? 57) then Some (n - 48) else None.

Fixpoint lstrip (s : string) : string :=
  match s with
  | String c s' => if is_space c then lstrip s' else s
  | EmptyString => EmptyString
  end.

Fixpoint rstrip (s : string) : string :=
  match s with
  | EmptyString => EmptyString
  | String a s' =>
      match rstrip s' with
      | EmptyString => if is_space a then EmptyString else String a EmptyString
      | t => String a t
      end
  end.

(** [digits acc after_digit s]: the value of [s], a run of digits where
    an underscore may only stand between two digits. *)
Fixpoint digits (acc : Z) (after_digit : bool) (s : string) : option Z :=
  match s with
  | EmptyString => if after_digit then Some acc else None
  | String c s' =>
      match digit_of c with
      | Some d => digits (10 * acc + d) true s'
      | None =>
          if Ascii.eqb c "_" && after_digit
          then match s' with
               | String c' _ =>
                   match digit_of c' with
                   | Some _ => digits acc false s'
                   | None => None
                   end
               | EmptyString => None
               end
          else None
      end
  end.

Definition int_of_string (s : string) : result Z :=
  let body := rstrip (lstrip s) in
  let '(neg, ds) :=
    match body with
    | String "-" t => (true, t)
    | String "+" t => (false, t)
    | _ => (false, body)
    end in
  match digits 0 false ds with
  | Some n => Ok (if neg then - n else n)
  | None => Raise ValueError
  end.

(** ** The world: file system and event trace

    A path is the string the program builds: there is no normalisation,
    no link and no working directory.  The file system maps a path to the
    node that stands there; it does not track the parents of a node, so
    [os.makedirs] adds the one directory it is asked for, and a file can
    be written wherever no directory stands. *)

Definition bytes := list Byte.byte.

Inductive node : Type :=
  | File (data : bytes)
  | Dir.

(** What the program prints, and its calls into OpenCV. *)
Inductive event : Type :=
  | PrintFileNotExist (src : string)               (* line 37 *)
  | PrintResizeFailed (src : string) (ex : exn)    (* line 56 *)
  | PrintDirNotExist (d : string)                  (* line 74 *)
  | PrintNoImage                                   (* line 95 *)
  | PrintTotal (n : Z)                             (* line 98 *)
  | PrintProgress (ok total : Z)                   (* line 109 *)
  | PrintFail (fail : Z)                           (* line 112 *)
  | PrintFinished (ok fail : Z)                    (* line 114 *)
  | PrintUsage                                     (* line 121 *)
  | PrintExample (dst : string)                    (* lines 122-123 *)
  | CallImread (path : string)                     (* line 41 *)
  | CallResize (w h : Z)                           (* line 51 *)
  | CallImwrite (path : string).                   (* line 52 *)

Record world : Type := World {
  fs : gmap string node;
  trace : list event;
}.

(** Computations that read and change the world and may raise. *)
Definition M (A : Type) : Type := world → result A * world.

#[global] Instance M_ret : MRet M := fun _ a w => (Ok a, w).
#[global] Instance M_bind : MBind M := fun _ _ f m w =>
  match m w with
  | (Ok a, w') => f a w'
  | (Raise e, w') => (Raise e, w')
  end.

Definition lift {A} (r : result A) : M A := fun w => (r, w).
Definition raise {A} (e : exn) : M A := lift (Raise e).

(** [try: body / except Exception as ex: handler ex]. *)
Definition try_except {A} (body : M A) (handler : exn → M A) : M A :=
  fun w =>
    match body w with
    | (Raise e, w') => handler e w'
    | r => r
    end.

Definition emit (e : event) : M () :=
  fun w => (Ok (), World (fs w) (trace w ++ [e])).

(** Reading the file system. *)
Definition gets {A} (f : gmap string node → A) : M A :=
  fun w => (Ok (f (fs w)), w).

Definition is_file (m : gmap string node) (p : string) : bool :=
  match m !! p with Some (File _) => true | _ => false end.
Definition is_dir (m : gmap string node) (p : string) : bool :=
  match m !! p with Some Dir => true | _ => false end.

Definition isfile (p : string) : M bool := gets (fun m => is_file m p).
Definition isdir (p : string) : M bool := gets (fun m => is_dir m p).

(** Writing [data] to [p]: refused, with [false], when [p] is a directory. *)
Definition write_file (p : string) (data : bytes) : M bool :=
  fun w =>
    match fs w !! p with
    | Some Dir => (Ok false, w)
    | _ => (Ok true, World (<[p := File data]> (fs w)) (trace w))
    end.

(** [os.makedirs(p)], called when [p] is not a directory. *)
Definition makedirs (p : string) : M () :=
  fun w =>
    if String.eqb p "" then (Raise FileNotFoundError, w)
    else match fs w !! p with
         | Some _ => (Raise FileExistsError, w)
         | None => (Ok (), World (<[p := Dir]> (fs w)) (trace w))
         end.

(** Unfolds the monad, to step through a computation. *)
Ltac munfold :=
  unfold mbind, M_bind, mret, M_ret, result_bind, result_ret,
         try_except, emit, gets, raise, lift in *.

Fixpoint strip_prefix (pre s : string) : option string :=
  match pre, s with
  | EmptyString, _ => Some s
  | String a pre', String b s' =>
      if Ascii.eqb a b then strip_prefix pre' s' else None
  | String _ _, EmptyString => None
  end.

Fixpoint has_char (c : ascii) (s : string) : bool :=
  match s with
  | EmptyString => false
  | String a s' => Ascii.eqb a c || has_char c s'
  end.

(** The name under which path [p] is listed in directory [d], if it is
    one of its entries. *)
Definition entry_name (d p : string) : option string :=
  match strip_prefix (join d "") p with
  | Some n => if String.eqb n "" || has_char "/" n then None else Some n
  | None => None
  end.

(** [os.listdir(d)]: files and directories alike, in the map's order. *)
Definition entries (m : gmap string node) (d : string) : list string :=
  omap (entry_name d) (map_to_list m).*1.
Definition listdir (d : string) : M (list string) := gets (fun m => entries m d).

(** ** OpenCV

    The codec is external: decoding, pixel resampling and encoding are
    parameters of the development. *)

Record image : Type := Image {
  rows : Z;
  cols : Z;
  channels : Z;
  pixels : list Z;
}.

Definition INT_MAX : Z := 2 ^ 31 - 1.

Section Program.

Variable imdecode : bytes → option image.
Variable resample : image → Z → Z → list Z.
Variable imencode : string → image → bytes.
Variable has_encoder : string → bool.
(** [os.path.realpath] of the usage message. *)
Variable realpath : string → string.

(** [cv2.imread(path)]: [None] when the file cannot be read or decoded. *)
Definition imread (path : string) : M (option image) :=
  emit (CallImread path);;
  gets (fun m => match m !! path with
                 | Some (File data) => imdecode data
                 | _ => None
                 end).

(** [img.shape], unpacked into three names. *)
Definition shape (img : option image) : M (Z * Z * Z) :=
  match img with
  | Some i => mret (rows i, cols i, channels i)
  | None => raise AttributeError
  end.

(** [cv2.resize(img, (w, h))]: the size must be positive and fit an int. *)
Definition resize (img : image) (w h : Z) : M image :=
  emit (CallResize w h);;
  if (0 <? w) && (w <=? INT_MAX) && (0 <? h) && (h <=? INT_MAX)
  then mret (Image h w (channels img) (resample img w h))
  else raise CvError.

(** [cv2.imwrite(path, img)]: raises without an encoder for the
    extension; returns [False] when the file cannot be written. *)
Definition imwrite (path : string) (img : image) : M bool :=
  emit (CallImwrite path);;
  let ext := (splitext path).2 in
  if has_encoder ext then write_file path (imencode ext img)
  else raise CvError.

(** ** [resize_image] (lines 23-57) *)

(** The body of the [try] statement, lines 41-54. *)
Definition resize_image_try (src_file_path dst_file_path : string)
    (larger_edge : Z) : M bool :=
  img ← imread src_file_path;
  '(h, w, c) ← shape img;
  '(w, h) ← lift (scale w h larger_edge);
  img ← match img with
        | Some i => resize i w h
        | None => raise AttributeError
        end;
  imwrite dst_file_path img;;
  mret true.

Definition resize_image (src_file_path dst_file_path : string) (larger_edge : Z)
  : M bool :=
  file ← isfile src_file_path;
  if negb file then
    emit (PrintFileNotExist src_file_path);;
    mret false
  else
    try_except
      (resize_image_try src_file_path dst_file_path larger_edge)
      (fun ex =>
         emit (PrintResizeFailed src_file_path ex);;
         mret false).

(** ** [resize_image_dir] (lines 60-116) *)

Definition image_ext_set : gset string := {[ ".jpg"; ".png"; ".jpeg" ]}.

(** The scan of lines 83-92 over the directory listing. *)
Fixpoint scan (src_dir dst_dir : string) (names : list string)
    (file_pair_list : list (string * string)) : M (list (string * string)) :=
  match names with
  | [] => mret file_pair_list
  | file_name :: names' =>
      let ext := (splitext file_name).2 in
      if bool_decide (ext ∉ image_ext_set) then
        scan src_dir dst_dir names' file_pair_list
      else
        let dst_file_path := join dst_dir file_name in
        present ← isfile dst_file_path;
        if (present : bool) then scan src_dir dst_dir names' file_pair_list
        else scan src_dir dst_dir names'
               (file_pair_list ++ [(join src_dir file_name, dst_file_path)])
  end.

(** *** The thread pool

    The tasks of the pool touch the world one at a time; the order in
    which they do so, which is also the order in which [as_completed]
    yields them, is decided by the scheduler.  [choices] records its
    decisions: at each step the index (modulo the number of pending
    tasks) of the task that runs next.  In the trace the events of the
    tasks come first and the lines of the collection loop after them; a
    real run may interleave the two. *)

Fixpoint pick {A} (i : nat) (l : list A) : option (A * list A) :=
  match l, i with
  | [], _ => None
  | x :: l', O => Some (x, l')
  | x :: l', S i' =>
      match pick i' l' with
      | Some (y, rest) => Some (y, x :: rest)
      | None => None
      end
  end.

Fixpoint completion_order {A} (choices : list nat) (fuel : nat) (pending : list A)
  : list A :=
  match fuel with
  | O => []
  | S fuel' =>
      let i := match choices with
               | c :: _ => (c mod length pending)%nat
               | [] => O
               end in
      match pick i pending with
      | Some (x, rest) => x :: completion_order (tail choices) fuel' rest
      | None => []
      end
  end.

(** A future holds what its task returned or raised. *)
Definition future (A : Type) : Type := result A.

Definition run_task {A} (task : M A) : M (future A) :=
  fun w => let '(r, w') := task w in (Ok r, w').

Fixpoint run_tasks (tasks : list (string * string)) (larger_edge : Z)
  : M (list (future bool)) :=
  match tasks with
  | [] => mret []
  | (src_file_path, dst_file_path) :: tasks' =>
      f ← run_task (resize_image src_file_path dst_file_path larger_edge);
      fs ← run_tasks tasks' larger_edge;
      mret (f :: fs)
  end.

(** The collection loop of lines 104-112. *)
Fixpoint collect (total : Z) (fs : list (future bool)) (ok_cnt fail_cnt : Z)
  : M (Z * Z) :=
  match fs with
  | [] => mret (ok_cnt, fail_cnt)
  | f :: fs' =>
      r ← lift f;
      if (r : bool) then
        let ok_cnt := ok_cnt + 1 in
        (if ok_cnt mod 1000 =? 0 then emit (PrintProgress ok_cnt total)
         else mret ());;
        collect total fs' ok_cnt fail_cnt
      else
        let fail_cnt := fail_cnt + 1 in
        emit (PrintFail fail_cnt);;
        collect total fs' ok_cnt fail_cnt
  end.

Definition resize_image_dir (choices : list nat)
    (src_dir dst_dir : string) (larger_edge : Z) : M bool :=
  src_ok ← isdir src_dir;
  if negb src_ok then
    emit (PrintDirNotExist src_dir);;
    mret false
  else
    dst_ok ← isdir dst_dir;
    (if negb dst_ok then makedirs dst_dir else mret ());;
    names ← listdir src_dir;
    file_pair_list ← scan src_dir dst_dir names [];
    match file_pair_list with
    | [] =>
        emit PrintNoImage;;
        mret true
    | _ =>
        let total := Z.of_nat (length file_pair_list) in
        emit (PrintTotal total);;
        fs ← run_tasks
               (completion_order choices (length file_pair_list) file_pair_list)
               larger_edge;
        '(ok_cnt, fail_cnt) ← collect total fs 0 0;
        emit (PrintFinished ok_cnt fail_cnt);;
        mret true
    end.

(** *** A task on its own

    What a task returns, and the file system it leaves, when it runs
    alone from the file system [m]. *)
Definition returns_alone (m : gmap string node) (larger_edge : Z)
    (t : string * string) : bool :=
  match (resize_image t.1 t.2 larger_edge (World m [])).1 with
  | Ok b => b
  | Raise _ => false
  end.

Definition leaves_alone (m : gmap string node) (larger_edge : Z)
    (t : string * string) : gmap string node :=
  fs (resize_image t.1 t.2 larger_edge (World m [])).2.

(** ** The command line (lines 119-126)

    [argv] is [sys.argv], the program name first; [file] is [__file__]. *)
Definition main (choices : list nat) (file : string) (argv : list string) : M () :=
  if (length argv <? 3)%nat then
    emit PrintUsage;;
    emit (PrintExample (realpath (join (dirname file) "small_image")))
  else
    match take 3 (drop 1 argv) with
    | [src_dir; dst_dir; larger_edge] =>
        n ← lift (int_of_string larger_edge);
        resize_image_dir choices src_dir dst_dir n;;
        mret ()
    | _ => raise ValueError
    end.

End Program.

(** ** Reference definitions

    What the program is expected to compute, stated without the loops;
    the properties below compare the program with them. *)

(** The double of an integer, [float(n)]. *)
Definition b64 (n : Z) : spec_float := binary_normalize 53 1024 n 0 false.

(** The double [1.0]. *)
Definition float_one : spec_float := S754_finite false (2 ^ 52) (-52).

(** Truncation toward zero of a finite double. *)
Definition truncate (x : spec_float) : Z :=
  match x with
  | S754_finite s m e =>
      cond_Zopp s (if 0 <=? e then Z.pos m * 2 ^ e else Z.pos m / 2 ^ (- e))
  | _ => 0
  end.

(** The scaling policy: the larger edge becomes [larger_edge], the other
    one is the truncated quotient or product in double precision. *)
Definition scaled_dims (w h larger_edge : Z) : Z * Z :=
  let ratio := SFdiv 53 1024 (b64 w) (b64 h) in
  if w >? h
  then (larger_edge, truncate (SFdiv 53 1024 (b64 larger_edge) ratio))
  else (truncate (SFmul 53 1024 (b64 larger_edge) ratio), larger_edge).

(** The rational number a double stands for. *)
Definition value (x : spec_float) : Q :=
  match x with
  | S754_finite s m e => (inject_Z (cond_Zopp s (Z.pos m)) * 2 ^ e)%Q
  | _ => 0%Q
  end.

(** One unit in the last place of a double in [1, 2). *)
Definition eps : Q := (1 # 4503599627370496)%Q.

(** The bounds on the scaled size are proved for targets and sources with
    [larger_edge * max(w, h) <= max_area]. *)
Definition max_area : Z := 2 ^ 48.

(** How far the aspect ratio of the output is from that of the source. *)
Definition aspect_error (w h new_w new_h : Z) : Q :=
  Qabs (inject_Z new_w / inject_Z new_h - inject_Z w / inject_Z h).

(** The tolerance of the specification: the aspect ratios of the output
    and of the source differ by at most [1 / min(new_w, new_h)]. *)
Definition aspect_tolerance (w h new_w new_h : Z) : Prop :=
  (aspect_error w h new_w new_h <= 1 / inject_Z (Z.min new_w new_h))%Q.

(** A directory entry's name: not empty, no slash. *)
Definition valid_name (n : string) : Prop := n ≠ "" ∧ has_char "/" n = false.

(** [name.endswith(suffix)]. *)
Fixpoint ends_with (suffix name : string) : bool :=
  String.eqb suffix name
  || match name with
     | String _ name' => ends_with suffix name'
     | EmptyString => false
     end.

(** A path prefix that a name can be appended to. *)
Definition slashed (a : string) : Prop := a = "" ∨ endswith_char "/" a = true.

(** The extension filter of line 85. *)
Definition is_image_name (file_name : string) : bool :=
  bool_decide ((splitext file_name).2 ∈ image_ext_set).

(** A name that passes the filter and has no file at its destination. *)
Definition pending (m : gmap string node) (dst_dir file_name : string) : bool :=
  is_image_name file_name && negb (is_file m (join dst_dir file_name)).

Definition work_items (m : gmap string node) (src_dir dst_dir : string)
    (names : list string) : list (string * string) :=
  (fun n => (join src_dir n, join dst_dir n)) <$> List.filter (pending m dst_dir) names.

(** The file system once the destination directory is there (line 78). *)
Definition prepared (m : gmap string node) (dst_dir : string) : gmap string node :=
  if is_dir m dst_dir then m else <[dst_dir := Dir]> m.

(** [os.makedirs] will not be called, or will succeed. *)
Definition creatable (m : gmap string node) (dst_dir : string) : Prop :=
  is_dir m dst_dir = true ∨ (dst_dir ≠ "" ∧ m !! dst_dir = None).

Definition count_ok (bs : list bool) : Z := Z.of_nat (length (List.filter id bs)).
Definition count_fail (bs : list bool) : Z := Z.of_nat (length (List.filter negb bs)).

(** The progress lines of the collection loop: every 1000th success and
    every failure. *)
Fixpoint progress_events (total : Z) (bs : list bool) (ok_cnt fail_cnt : Z)
  : list event :=
  match bs with
  | [] => []
  | true :: bs' =>
      (if (ok_cnt + 1) mod 1000 =? 0 then [PrintProgress (ok_cnt + 1) total] else [])
      ++ progress_events total bs' (ok_cnt + 1) fail_cnt
  | false :: bs' =>
      PrintFail (fail_cnt + 1) :: progress_events total bs' ok_cnt (fail_cnt + 1)
  end.

(** How the file system may change while tasks that write to [dsts] run:
    directories stay as they are, files stay files, and a new path is a
    written destination. *)
Definition evolves (m m' : gmap string node) (dsts : list string) : Prop :=
  (∀ p, m !! p = Some Dir ↔ m' !! p = Some Dir)
  ∧ (∀ p, is_file m p = true → is_file m' p = true)
  ∧ (∀ p, is_Some (m' !! p) → is_Some (m !! p) ∨ (p ∈ dsts ∧ is_file m' p = true)).

(** Tasks that do not touch one another's paths: no two of them write
    to the same destination, and none reads what another one writes. *)
Definition independent (tasks : list (string * string)) : Prop :=
  NoDup tasks.*2
  ∧ ∀ t t', t ∈ tasks → t' ∈ tasks → t.2 = t'.1 → t = t'.

(** ** A toy codec, to run the program on concrete worlds

    A file of two bytes [w; h] decodes to a [w] x [h] image. *)

Module Toy.

Definition imdecode (data : bytes) : option image :=
  match data with
  | [w; h] => Some (Image (Z.of_N (Byte.to_N h)) (Z.of_N (Byte.to_N w)) 3 [])
  | _ => None
  end.
Definition resample (_ : image) (_ _ : Z) : list Z := [].
Definition byte_of (n : Z) : Byte.byte :=
  match Byte.of_N (Z.to_N (n mod 256)) with Some b => b | None => Byte.x00 end.
Definition imencode (_ : string) (i : image) : bytes :=
  [byte_of (cols i); byte_of (rows i)].
Definition has_encoder (ext : string) : bool :=
  bool_decide (ext ∈ ({[ ".jpg"; ".png"; ".jpeg" ]} : gset string)).
Definition realpath (p : string) : string := p.

Definition resize_image := resize_image imdecode resample imencode has_encoder.
Definition resize_image_dir :=
  resize_image_dir imdecode resample imencode has_encoder.
Definition main := main imdecode resample imencode has_encoder realpath.

Definition pic (w h : Z) : node := File [byte_of w; byte_of h].

(** The scenario of the specification: two images and a text file. *)
Definition scenario : world :=
  World (list_to_map [("/src", Dir); ("/src/a.jpg", pic 200 100);
                      ("/src/b.png", pic 100 200);
                      ("/src/notes.txt", File [])]) [].

(** An image, a zero-byte file and a subdirectory, all with image names. *)
Definition mixed : world :=
  World (list_to_map [("/src", Dir); ("/src/a.jpg", pic 200 100);
                      ("/src/bad.jpg", File []);
                      ("/src/dir.png", Dir)]) [].

(** A subdirectory whose whole name is an image extension. *)
Definition hidden : world :=
  World (list_to_map [("/src", Dir); ("/src/.jpg", Dir)]) [].

(** The destination of the only image is taken by a directory. *)
Definition blocked : world :=
  World (list_to_map [("/src", Dir); ("/src/a.jpg", pic 200 100);
                      ("/dst", Dir); ("/dst/a.jpg", Dir)]) [].

(** An image of 200 x 1 pixels. *)
Definition thin : world :=
  World (list_to_map [("/src", Dir); ("/src/line.png", pic 200 1)]) [].

End Toy.

(** * Properties *)

(** ** Running the model on concrete inputs *)

Example scale_200_100 : scale 200 100 160 = Ok (160, 80).
Proof. vm_compute. reflexivity. Qed.
Example scale_100_200 : scale 100 200 160 = Ok (80, 160).
Proof. vm_compute. reflexivity. Qed.
Example scale_square : scale 64 64 160 = Ok (160, 160).
Proof. vm_compute. reflexivity. Qed.
Example scale_zero_height : scale 10 0 160 = Raise ZeroDivisionError.
Proof. vm_compute. reflexivity. Qed.
(** Double precision shows: [49 * (1 / 49)] is just below 1. *)
Example scale_1_49 : scale 1 49 49 = Ok (0, 49).
Proof. vm_compute. reflexivity. Qed.
(** A target too large for a double. *)
Example scale_huge_target : scale 2 1 (2 ^ 1024) = Raise OverflowError.
Proof. vm_compute. reflexivity. Qed.
(** A narrow image scaled down to nothing. *)
Example scale_to_zero_width : scale 1 100 50 = Ok (0, 50).
Proof. vm_compute. reflexivity. Qed.
Example splitext_jpg : splitext "a.jpg" = ("a", ".jpg").
Proof. reflexivity. Qed.
Example splitext_two_dots : splitext "a.tar.jpeg" = ("a.tar", ".jpeg").
Proof. reflexivity. Qed.
Example splitext_hidden : splitext ".jpg" = (".jpg", "").
Proof. reflexivity. Qed.
Example splitext_dir_dot : splitext "a.b/c" = ("a.b/c", "").
Proof. reflexivity. Qed.
Example join_plain : join "/tmp/small" "a.jpg" = "/tmp/small/a.jpg".
Proof. reflexivity. Qed.
Example join_slash : join "/tmp/small/" "a.jpg" = "/tmp/small/a.jpg".
Proof. reflexivity. Qed.
Example join_absolute : join "/tmp/small" "/a.jpg" = "/a.jpg".
Proof. reflexivity. Qed.
Example dirname_file : dirname "/home/u/resize_image.py" = "/home/u".
Proof. reflexivity. Qed.
Example dirname_root : dirname "/x" = "/".
Proof. reflexivity. Qed.
Example dirname_relative : dirname "resize_image.py" = "".
Proof. reflexivity. Qed.
Example int_of_string_160 : int_of_string "160" = Ok 160.
Proof. reflexivity. Qed.
Example int_of_string_neg : int_of_string " -1_000 " = Ok (-1000).
Proof. reflexivity. Qed.
Example int_of_string_bad : int_of_string "16o" = Raise ValueError.
Proof. reflexivity. Qed.

(** ** Strings and paths *)

Lemma append_cons c (a b : string) : String c a +:+ b = String c (a +:+ b).
Proof. reflexivity. Qed.

Lemma append_empty_l (s : string) : "" +:+ s = s.
Proof. reflexivity. Qed.

Lemma append_empty_r (s : string) : s +:+ "" = s.
Proof. induction s; rewrite ?append_cons; [done|congruence]. Qed.

Lemma append_assoc (a b c : string) : (a +:+ b) +:+ c = a +:+ (b +:+ c).
Proof. induction a; rewrite ?append_cons, ?append_empty_l; congruence. Qed.

Lemma strip_prefix_Some pre s n : strip_prefix pre s = Some n ↔ s = pre +:+ n.
Proof.
  revert s. induction pre as [|a pre IH]; intros s; simpl.
  - rewrite append_empty_l. split; congruence.
  - rewrite append_cons. destruct s as [|b s]; [split; congruence|].
    destruct (Ascii.eqb_spec a b) as [->|Hne].
    + rewrite IH. split; congruence.
    + split; congruence.
Qed.

Lemma valid_name_not_absolute n : valid_name n → startswith_char "/" n = false.
Proof.
  intros [Hne Hs]. destruct n as [|c n]; [done|].
  simpl in *. by apply orb_false_iff in Hs as [Hc _].
Qed.

Lemma join_dir d n : startswith_char "/" n = false → join d n = join d "" +:+ n.
Proof.
  intros H. unfold join. rewrite H. simpl.
  destruct (String.eqb d "" || endswith_char "/" d).
  - by rewrite append_empty_r.
  - by rewrite !append_assoc.
Qed.

Lemma endswith_char_app c a b :
  endswith_char c (a +:+ String c b) = endswith_char c (String c b).
Proof.
  induction a as [|x a IH]; [done|].
  rewrite append_cons. simpl. rewrite IH.
  destruct (a +:+ String c b) eqn:E; [by destruct a|]. done.
Qed.

Lemma slashed_join d : slashed (join d "").
Proof.
  unfold join, slashed. simpl.
  destruct (String.eqb_spec d "") as [->|Hd]; simpl; [by left|].
  destruct (endswith_char "/" d) eqn:E.
  - right. by rewrite append_empty_r.
  - right. rewrite append_empty_r.
    change (d +:+ "/") with (d +:+ String "/" "").
    by rewrite endswith_char_app.
Qed.

Lemma has_char_app c a b : has_char c (a +:+ b) = has_char c a || has_char c b.
Proof.
  induction a; rewrite ?append_cons, ?append_empty_l; simpl; [done|].
  by rewrite IHa, orb_assoc.
Qed.

Lemma endswith_has_char c a : endswith_char c a = true → has_char c a = true.
Proof.
  induction a as [|x a IH]; [done|]. simpl.
  destruct a; [intros ->; done|]. intros H. rewrite IH by done. apply orb_true_r.
Qed.

Lemma slashed_tail c a : slashed (String c a) → slashed a.
Proof.
  intros [?|H]; [done|]. destruct a; [by left|by right].
Qed.

Lemma split_name a1 a2 n1 n2 :
  slashed a1 → slashed a2 →
  has_char "/" n1 = false → has_char "/" n2 = false →
  a1 +:+ n1 = a2 +:+ n2 → a1 = a2 ∧ n1 = n2.
Proof.
  revert a2. induction a1 as [|c a1 IH]; intros a2 H1 H2 Hn1 Hn2 Heq.
  - destruct a2 as [|c a2]; [done|]. rewrite append_empty_l in Heq. subst n1.
    destruct H2 as [?|H2]; [done|].
    apply endswith_has_char in H2.
    rewrite has_char_app, H2 in Hn1. done.
  - destruct a2 as [|c' a2].
    + rewrite append_empty_l in Heq. subst n2.
      destruct H1 as [?|H1]; [done|].
      apply endswith_has_char in H1.
      rewrite has_char_app, H1 in Hn2. done.
    + rewrite !append_cons in Heq. injection Heq as -> Heq.
      destruct (IH a2) as [-> ->]; eauto using slashed_tail.
Qed.

Lemma entries_spec (m : gmap string node) d n :
  n ∈ entries m d ↔ valid_name n ∧ is_Some (m !! (join d "" +:+ n)).
Proof.
  unfold entries. rewrite list_elem_of_omap. split.
  - intros (p & Hp & Hn). unfold entry_name in Hn.
    destruct (strip_prefix (join d "") p) as [n'|] eqn:Hs; [|done].
    destruct (String.eqb_spec n' "") as [->|Hne]; [done|]. simpl in Hn.
    destruct (has_char "/" n') eqn:Hc; [done|]. simplify_eq.
    apply strip_prefix_Some in Hs. subst p.
    split; [done|].
    apply list_elem_of_fmap in Hp as ([p v] & Hpv & Hp). simpl in Hpv. subst p.
    apply elem_of_map_to_list in Hp. by exists v.
  - intros ([Hne Hc] & v & Hv). exists (join d "" +:+ n). split.
    + apply list_elem_of_fmap. exists (join d "" +:+ n, v). split; [done|].
      by apply elem_of_map_to_list.
    + unfold entry_name.
      rewrite (proj2 (strip_prefix_Some _ _ n)) by done.
      destruct (String.eqb_spec n "") as [->|?]; [done|]. simpl. by rewrite Hc.
Qed.

(** ** Binary64 arithmetic *)

(** *** Digits *)

Lemma digits2_pos_bounds (p : positive) :
  2 ^ (Z.pos (digits2_pos p) - 1) ≤ Z.pos p < 2 ^ Z.pos (digits2_pos p).
Proof.
  induction p as [p IH|p IH|]; cbn [digits2_pos].
  - rewrite Pos2Z.inj_succ.
    replace (Z.succ (Z.pos (digits2_pos p)) - 1) with (Z.succ (Z.pos (digits2_pos p) - 1))
      by lia.
    rewrite !Z.pow_succ_r by lia. lia.
  - rewrite Pos2Z.inj_succ.
    replace (Z.succ (Z.pos (digits2_pos p)) - 1) with (Z.succ (Z.pos (digits2_pos p) - 1))
      by lia.
    rewrite !Z.pow_succ_r by lia. lia.
  - simpl. lia.
Qed.

Lemma Zdigits2_bounds m :
  0 < m → 2 ^ (Zdigits2 m - 1) ≤ m < 2 ^ Zdigits2 m.
Proof. destruct m as [|p|p]; try lia. intros _. apply digits2_pos_bounds. Qed.

Lemma Zdigits2_pos m : 0 < m → 0 < Zdigits2 m.
Proof. destruct m; simpl; lia. Qed.

Lemma Zdigits2_unique m d :
  0 < d → 2 ^ (d - 1) ≤ m < 2 ^ d → Zdigits2 m = d.
Proof.
  intros Hd [Hlo Hhi].
  assert (0 < m) as Hm by (pose proof (Z.pow_pos_nonneg 2 (d - 1)); lia).
  pose proof (Zdigits2_bounds m Hm) as [Hlo' Hhi'].
  pose proof (Zdigits2_pos m Hm) as Hpos.
  destruct (Z.lt_trichotomy (Zdigits2 m) d) as [Hlt|[?|Hgt]]; [|done|].
  - assert (2 ^ Zdigits2 m ≤ 2 ^ (d - 1)) by (apply Z.pow_le_mono_r; lia). lia.
  - assert (2 ^ d ≤ 2 ^ (Zdigits2 m - 1)) by (apply Z.pow_le_mono_r; lia). lia.
Qed.

(** *** Shifting right *)

Lemma shr_1_m mrs : 0 ≤ shr_m mrs → shr_m (shr_1 mrs) = shr_m mrs / 2.
Proof.
  destruct mrs as [m r s]. simpl. intros Hm.
  destruct m as [|[p|p|]|p]; cbn [shr_m]; try lia;
    first [reflexivity
          |apply Z.div_unique with 1; lia
          |apply Z.div_unique with 0; lia].
Qed.

Lemma pow2_xI n : 2 ^ Z.pos n~1 = 2 * (2 ^ Z.pos n * 2 ^ Z.pos n).
Proof.
  replace (Z.pos n~1) with (Z.pos n + Z.pos n + 1) by lia.
  rewrite !Z.pow_add_r by lia. lia.
Qed.

Lemma pow2_xO n : 2 ^ Z.pos n~0 = 2 ^ Z.pos n * 2 ^ Z.pos n.
Proof.
  replace (Z.pos n~0) with (Z.pos n + Z.pos n) by lia.
  by rewrite Z.pow_add_r by lia.
Qed.

Lemma iter_pos_shr_1 n mrs :
  0 ≤ shr_m mrs →
  shr_m (SpecFloat.iter_pos shr_1 n mrs) = shr_m mrs / 2 ^ Z.pos n.
Proof.
  revert mrs. induction n as [n IH|n IH|]; intros mrs Hm; cbn [SpecFloat.iter_pos].
  - assert (0 ≤ shr_m (shr_1 mrs)) as H1.
    { rewrite shr_1_m by done. apply Z.div_pos; lia. }
    assert (0 ≤ shr_m (SpecFloat.iter_pos shr_1 n (shr_1 mrs))) as H2.
    { rewrite IH by done. apply Z.div_pos; lia. }
    rewrite IH, IH, shr_1_m by done.
    rewrite !Z.div_div by lia. by rewrite pow2_xI.
  - assert (0 ≤ shr_m (SpecFloat.iter_pos shr_1 n mrs)) as H2.
    { rewrite IH by done. apply Z.div_pos; lia. }
    rewrite IH, IH by done. rewrite Z.div_div by lia. by rewrite pow2_xO.
  - by rewrite shr_1_m.
Qed.

Lemma shr_m_of_loc m l : shr_m (shr_record_of_loc m l) = m.
Proof. destruct l as [|[]]; reflexivity. Qed.

Lemma shr_spec mrs e n :
  0 ≤ shr_m mrs → 0 ≤ n →
  shr_m (shr mrs e n).1 = shr_m mrs / 2 ^ n ∧ (shr mrs e n).2 = e + n.
Proof.
  intros Hm Hn. destruct n as [|p|p]; try lia; simpl.
  - rewrite Z.div_1_r. lia.
  - split; [by apply iter_pos_shr_1|done].
Qed.

(** *** Rounding *)

Lemma fexp_normal e : -1021 ≤ e → fexp 53 1024 e = e - 53.
Proof. unfold fexp, emin. lia. Qed.

Lemma shr_fexp_spec mx ex lx :
  0 < mx → 53 ≤ Zdigits2 mx → -1021 ≤ Zdigits2 mx + ex →
  shr_m (shr_fexp 53 1024 mx ex lx).1 = mx / 2 ^ (Zdigits2 mx - 53)
  ∧ (shr_fexp 53 1024 mx ex lx).2 = ex + (Zdigits2 mx - 53).
Proof.
  intros Hm Hd He. unfold shr_fexp. rewrite fexp_normal by done.
  replace (Zdigits2 mx + ex - 53 - ex) with (Zdigits2 mx - 53) by lia.
  destruct (shr_spec (shr_record_of_loc mx lx) ex (Zdigits2 mx - 53)) as [H1 H2];
    [rewrite shr_m_of_loc; lia|lia|].
  rewrite shr_m_of_loc in H1. done.
Qed.

Lemma leading_bits mx :
  0 < mx → 53 ≤ Zdigits2 mx →
  2 ^ 52 ≤ mx / 2 ^ (Zdigits2 mx - 53) < 2 ^ 53.
Proof.
  intros Hm Hd. pose proof (Zdigits2_bounds mx Hm) as [Hlo Hhi].
  set (n := Zdigits2 mx - 53) in *.
  assert (0 < 2 ^ n) as Hn by (apply Z.pow_pos_nonneg; lia).
  replace (Zdigits2 mx - 1) with (52 + n) in Hlo by lia.
  replace (Zdigits2 mx) with (53 + n) in Hhi by lia.
  rewrite Z.pow_add_r in Hlo, Hhi by lia.
  split.
  - apply Z.div_le_lower_bound; lia.
  - apply Z.div_lt_upper_bound; lia.
Qed.

Lemma round_nearest_even_cases m l :
  round_nearest_even m l = m ∨ round_nearest_even m l = m + 1.
Proof.
  destruct l as [|[]]; simpl; auto. destruct (Z.even m); auto.
Qed.

(** Rounding a positive integer of at least 53 bits, away from underflow
    and overflow: the result has a 53-bit mantissa, which is the leading
    53 bits of [mx] or one more. *)
Lemma binary_round_aux_spec sx mx ex lx :
  0 < mx → 53 ≤ Zdigits2 mx →
  -1021 ≤ Zdigits2 mx + ex → Zdigits2 mx + ex ≤ 1023 →
  ∃ m e k j,
    binary_round_aux 53 1024 sx mx ex lx = S754_finite sx m e
    ∧ 2 ^ 52 ≤ Z.pos m < 2 ^ 53
    ∧ (k = 0 ∨ k = 1) ∧ (j = 0 ∨ j = 1)
    ∧ e = ex + (Zdigits2 mx - 53) + j
    ∧ Z.pos m * 2 ^ j = mx / 2 ^ (Zdigits2 mx - 53) + k.
Proof.
  intros Hm Hd Hlo Hhi. unfold binary_round_aux.
  pose proof (shr_fexp_spec mx ex lx Hm Hd Hlo) as [Hm1 He1].
  destruct (shr_fexp 53 1024 mx ex lx) as [mrs1 e1]. cbn [fst snd] in Hm1, He1.
  pose proof (leading_bits mx Hm Hd) as Hbits.
  set (m1 := mx / 2 ^ (Zdigits2 mx - 53)) in *.
  set (m2 := round_nearest_even (shr_m mrs1) (loc_of_shr_record mrs1)).
  assert (m2 = m1 ∨ m2 = m1 + 1) as Hm2.
  { subst m2. rewrite <- Hm1. apply round_nearest_even_cases. }
  assert (Zdigits2 m2 = 53 ∧ m2 < 2 ^ 53 ∨ Zdigits2 m2 = 54 ∧ m2 = 2 ^ 53) as Hd2.
  { destruct (Z.eq_dec m2 (2 ^ 53)) as [->|Hne]; [by right|left].
    split; [|lia]. apply Zdigits2_unique; [lia|]. change (53 - 1) with 52. lia. }
  assert (0 < m2) as Hm2pos by lia.
  destruct (shr_fexp_spec m2 e1 loc_Exact Hm2pos) as [Hm3 He3]; [lia|lia|].
  destruct (shr_fexp 53 1024 m2 e1 loc_Exact) as [mrs3 e3]. cbn [fst snd] in Hm3, He3.
  destruct Hd2 as [[Hd2 Hlt]|[Hd2 Heq]]; rewrite Hd2 in Hm3, He3.
  - change (2 ^ (53 - 53)) with 1 in Hm3. rewrite Z.div_1_r in Hm3.
    rewrite Hm3. destruct m2 as [|p|p] eqn:Ep; try lia.
    assert ((e3 <=? 1024 - 53) = true) as -> by (apply Z.leb_le; lia).
    exists p, e3, (Z.pos p - m1), 0.
    split; [done|]. split; [lia|]. split; [lia|]. split; [by left|].
    split; lia.
  - rewrite Heq in Hm3. change (2 ^ 53 / 2 ^ (54 - 53)) with (2 ^ 52) in Hm3.
    rewrite Hm3. change (2 ^ 52) with (Z.pos (2 ^ 52)).
    assert ((e3 <=? 1024 - 53) = true) as -> by (apply Z.leb_le; lia).
    exists (2 ^ 52)%positive, e3, 1, 1.
    split; [done|]. split; [lia|]. split; [by right|]. split; [by right|].
    split; [lia|]. change (Z.pos (2 ^ 52) * 2 ^ 1) with (2 ^ 53). lia.
Qed.

(** A 53-bit mantissa with an exponent in range is left as it is. *)
Lemma binary_round_aux_exact sx m e :
  Zdigits2 (Z.pos m) = 53 → -1074 ≤ e ≤ 971 →
  binary_round_aux 53 1024 sx (Z.pos m) e loc_Exact = S754_finite sx m e.
Proof.
  intros Hd He. unfold binary_round_aux, shr_fexp. rewrite Hd.
  assert (fexp 53 1024 (53 + e) - e = 0) as -> by (unfold fexp, emin; lia).
  cbn [shr shr_record_of_loc loc_of_shr_record shr_m round_nearest_even].
  rewrite Hd.
  assert (fexp 53 1024 (53 + e) - e = 0) as -> by (unfold fexp, emin; lia).
  cbn [shr shr_record_of_loc shr_m].
  by assert ((e <=? 1024 - 53) = true) as -> by (apply Z.leb_le; lia).
Qed.

Lemma pos_iter_xO p k : Z.pos (Pos.iter xO p k) = Z.pos p * 2 ^ Z.pos k.
Proof.
  induction k as [|k IH] using Pos.peano_ind.
  - simpl. lia.
  - rewrite Pos.iter_succ, Pos2Z.inj_xO, IH, Pos2Z.inj_succ, Z.pow_succ_r by lia. lia.
Qed.

(** The conversion of an integer below [2 ^ 53] is exact. *)
Lemma binary_round_small s p :
  Z.pos p < 2 ^ 53 →
  ∃ m e, binary_round 53 1024 s p 0 = S754_finite s m e
         ∧ 2 ^ 52 ≤ Z.pos m < 2 ^ 53
         ∧ -52 ≤ e ≤ 0
         ∧ Z.pos m = Z.pos p * 2 ^ (- e).
Proof.
  intros Hp. unfold binary_round.
  pose proof (digits2_pos_bounds p) as [Hlo Hhi].
  set (d := Z.pos (digits2_pos p)) in *.
  assert (d ≤ 53) as Hd.
  { destruct (Z.le_gt_cases d 53) as [?|Hgt]; [done|].
    assert (2 ^ 53 ≤ 2 ^ (d - 1)) by (apply Z.pow_le_mono_r; lia). lia. }
  rewrite fexp_normal by lia. unfold shl_align.
  destruct (d + 0 - 53 - 0) as [|z|z] eqn:Hz; try lia.
  - rewrite binary_round_aux_exact.
    + exists p, 0. assert (d = 53) as Hd53 by lia. rewrite Hd53 in Hlo.
      change (53 - 1) with 52 in Hlo. repeat split; try lia.
    + change (Zdigits2 (Z.pos p)) with d. lia.
    + lia.
  - assert (Z.pos z = 53 - d) as Hzd by lia.
    pose proof (pos_iter_xO p z) as Hm. rewrite Hzd in Hm.
    assert (0 < 2 ^ (53 - d)) as Hpow by (apply Z.pow_pos_nonneg; lia).
    assert (2 ^ 52 = 2 ^ (d - 1) * 2 ^ (53 - d)) as H52.
    { rewrite <- Z.pow_add_r by lia. f_equal. lia. }
    assert (2 ^ 53 = 2 ^ d * 2 ^ (53 - d)) as H53.
    { rewrite <- Z.pow_add_r by lia. f_equal. lia. }
    assert (2 ^ 52 ≤ Z.pos (Pos.iter xO p z) < 2 ^ 53) as Hb.
    { rewrite Hm, H52, H53. split.
      - apply Z.mul_le_mono_nonneg_r; lia.
      - apply Z.mul_lt_mono_pos_r; lia. }
    rewrite binary_round_aux_exact.
    + exists (Pos.iter xO p z), (d + 0 - 53).
      split; [done|]. split; [done|]. split; [lia|].
      rewrite Hm. do 2 f_equal. lia.
    + apply Zdigits2_unique; [lia|]. change (53 - 1) with 52. lia.
    + lia.
Qed.

Lemma binary_normalize_small n :
  n ≠ 0 → Z.abs n < 2 ^ 53 →
  ∃ m e, binary_normalize 53 1024 n 0 false = S754_finite (n <? 0) m e
         ∧ 2 ^ 52 ≤ Z.pos m < 2 ^ 53
         ∧ -52 ≤ e ≤ 0
         ∧ Z.pos m = Z.abs n * 2 ^ (- e).
Proof.
  intros Hn Hb. destruct n as [|p|p]; [done|..]; simpl;
    apply binary_round_small; lia.
Qed.

(** Division of two 53-bit mantissas: the quotient, scaled back, is off
    by at most one unit in the last place. *)
Lemma SFdiv_spec sx mx ex sy my ey :
  2 ^ 52 ≤ Z.pos mx < 2 ^ 53 → 2 ^ 52 ≤ Z.pos my < 2 ^ 53 →
  -400 ≤ ex ≤ 400 → -400 ≤ ey ≤ 400 →
  ∃ m e c,
    SFdiv 53 1024 (S754_finite sx mx ex) (S754_finite sy my ey)
    = S754_finite (xorb sx sy) m e
    ∧ 2 ^ 52 ≤ Z.pos m < 2 ^ 53
    ∧ 0 ≤ c ≤ 2
    ∧ e = ex - ey - 53 + c
    ∧ Z.abs (Z.pos m * 2 ^ c * Z.pos my - Z.pos mx * 2 ^ 53) ≤ 2 * Z.pos mx.
Proof.
  intros Hmx Hmy Hex Hey. unfold SFdiv, SFdiv_core_binary.
  assert (Zdigits2 (Z.pos mx) = 53) as ->
    by (apply Zdigits2_unique; [lia|change (53 - 1) with 52; lia]).
  assert (Zdigits2 (Z.pos my) = 53) as ->
    by (apply Zdigits2_unique; [lia|change (53 - 1) with 52; lia]).
  rewrite fexp_normal by lia.
  replace (Z.min (53 + ex - (53 + ey) - 53) (ex - ey)) with (ex - ey - 53) by lia.
  replace (ex - ey - (ex - ey - 53)) with 53 by lia.
  cbv iota. rewrite Z.shiftl_mul_pow2 by lia.
  set (m' := Z.pos mx * 2 ^ 53).
  pose proof (Z_div_mod m' (Z.pos my) ltac:(lia)) as Hdiv.
  destruct (Z.div_eucl m' (Z.pos my)) as [q r]. destruct Hdiv as [Hq Hr].
  assert (2 ^ 52 ≤ q < 2 ^ 54) as Hqb by (subst m'; nia).
  assert (0 < q) as Hqpos by lia.
  assert (Zdigits2 q = 53 ∨ Zdigits2 q = 54) as Hdq.
  { destruct (Z.lt_ge_cases q (2 ^ 53)); [left|right];
      (apply Zdigits2_unique; [lia|]);
      [change (53 - 1) with 52|change (54 - 1) with 53]; lia. }
  destruct (binary_round_aux_spec (xorb sx sy) q (ex - ey - 53)
              (new_location (Z.pos my) r))
    as (m & e & k & j & Hres & Hmb & Hk & Hj & He & Hval); [lia..|].
  exists m, e, (Zdigits2 q - 53 + j).
  split; [done|]. split; [done|]. split; [lia|]. split; [lia|].
  rewrite Z.pow_add_r by lia.
  destruct Hdq as [Hd|Hd]; rewrite Hd in Hval |- *.
  - change (2 ^ (53 - 53)) with 1 in *. rewrite Z.div_1_r in Hval.
    replace (Z.pos m * (1 * 2 ^ j)) with (q + k) by lia.
    subst m'. nia.
  - change (2 ^ (54 - 53)) with 2 in *.
    replace (Z.pos m * (2 * 2 ^ j)) with ((q / 2 + k) * 2) by lia.
    pose proof (Z_div_mod_eq_full q 2) as Hq2.
    pose proof (Z.mod_pos_bound q 2 ltac:(lia)) as Hq2b.
    assert (2 ^ 53 ≤ q).
    { destruct (Z.lt_ge_cases q (2 ^ 53)) as [Hlt|?]; [|done].
      assert (Zdigits2 q = 53)
        by (apply Zdigits2_unique; [lia|change (53 - 1) with 52; lia]).
      lia. }
    assert (Z.pos my ≤ Z.pos mx) by (subst m'; nia).
    subst m'. nia.
Qed.

(** Multiplication of two 53-bit mantissas. *)
Lemma SFmul_spec sx mx ex sy my ey :
  2 ^ 52 ≤ Z.pos mx < 2 ^ 53 → 2 ^ 52 ≤ Z.pos my < 2 ^ 53 →
  -400 ≤ ex ≤ 400 → -400 ≤ ey ≤ 400 →
  ∃ m e c,
    SFmul 53 1024 (S754_finite sx mx ex) (S754_finite sy my ey)
    = S754_finite (xorb sx sy) m e
    ∧ 2 ^ 52 ≤ Z.pos m < 2 ^ 53
    ∧ 52 ≤ c ≤ 54
    ∧ e = ex + ey + c
    ∧ 2 ^ 52 * Z.abs (Z.pos m * 2 ^ c - Z.pos mx * Z.pos my) ≤ Z.pos mx * Z.pos my.
Proof.
  intros Hmx Hmy Hex Hey. unfold SFmul.
  change (Z.pos (mx * my)) with (Z.pos mx * Z.pos my).
  set (P := Z.pos mx * Z.pos my).
  assert (2 ^ 104 ≤ P < 2 ^ 106) as HP.
  { subst P. change (2 ^ 104) with (2 ^ 52 * 2 ^ 52).
    change (2 ^ 106) with (2 ^ 53 * 2 ^ 53). nia. }
  assert (0 < P) as HPpos by lia.
  assert (Zdigits2 P = 105 ∨ Zdigits2 P = 106) as HdP.
  { destruct (Z.lt_ge_cases P (2 ^ 105)); [left|right];
      (apply Zdigits2_unique; [lia|]);
      [change (105 - 1) with 104|change (106 - 1) with 105]; lia. }
  destruct (binary_round_aux_spec (xorb sx sy) P (ex + ey) loc_Exact)
    as (m & e & k & j & Hres & Hmb & Hk & Hj & He & Hval); [lia..|].
  exists m, e, (Zdigits2 P - 53 + j).
  split; [done|]. split; [done|]. split; [lia|]. split; [lia|].
  pose proof (Zdigits2_bounds P HPpos) as [Hlo Hhi].
  set (n := Zdigits2 P - 53) in *.
  assert (0 < 2 ^ n) as Hn by (apply Z.pow_pos_nonneg; lia).
  replace (Zdigits2 P - 1) with (52 + n) in Hlo by lia.
  rewrite Z.pow_add_r in Hlo by lia.
  rewrite Z.pow_add_r by lia.
  pose proof (Z_div_mod_eq_full P (2 ^ n)) as HPn.
  pose proof (Z.mod_pos_bound P (2 ^ n) Hn) as HPnb.
  replace (Z.pos m * (2 ^ n * 2 ^ j)) with ((P / 2 ^ n + k) * 2 ^ n) by lia.
  nia.
Qed.

(** *** Values *)

Lemma pow2_pos e : (0 < 2 ^ e)%Q.
Proof. by apply Qpower_0_lt. Qed.

Lemma pow2_add a b : (2 ^ (a + b) == 2 ^ a * 2 ^ b)%Q.
Proof. by apply Qpower_plus. Qed.

Lemma pow2_inject n : 0 ≤ n → (inject_Z (2 ^ n) == 2 ^ n)%Q.
Proof. intros H. by rewrite Zpower_Qpower. Qed.

Lemma pow2_cancel e : (2 ^ (- e) * 2 ^ e == 1)%Q.
Proof. rewrite <- pow2_add. by replace (- e + e) with 0 by lia. Qed.

Lemma value_scaled m e n :
  Z.pos m = n * 2 ^ (- e) → e ≤ 0 →
  (value (S754_finite false m e) == inject_Z n)%Q.
Proof.
  intros Hm He. simpl. rewrite Hm, inject_Z_mult, pow2_inject by lia.
  rewrite <- Qmult_assoc, pow2_cancel. ring.
Qed.

Lemma abs_bound_Q d b :
  Z.abs d ≤ b → (- inject_Z b <= inject_Z d <= inject_Z b)%Q.
Proof.
  intros H. rewrite <- inject_Z_opp. split; rewrite <- Zle_Qle; lia.
Qed.

(** Division is accurate to one part in [2 ^ 52]. *)
Lemma value_div mx ex my ey :
  2 ^ 52 ≤ Z.pos mx < 2 ^ 53 → 2 ^ 52 ≤ Z.pos my < 2 ^ 53 →
  -400 ≤ ex ≤ 400 → -400 ≤ ey ≤ 400 →
  let x := S754_finite false mx ex in
  let y := S754_finite false my ey in
  ∃ m e,
    SFdiv 53 1024 x y = S754_finite false m e
    ∧ 2 ^ 52 ≤ Z.pos m < 2 ^ 53
    ∧ ex - ey - 53 ≤ e ≤ ex - ey - 51
    ∧ (Qabs (value (S754_finite false m e) * value y - value x) <= value x * eps)%Q.
Proof.
  intros Hmx Hmy Hex Hey x y.
  destruct (SFdiv_spec false mx ex false my ey Hmx Hmy Hex Hey)
    as (m & e & c & Hres & Hm & Hc & He & Hval).
  exists m, e. split; [done|]. split; [done|]. split; [lia|].
  apply abs_bound_Q in Hval.
  rewrite <- Z.add_opp_r, inject_Z_plus, inject_Z_opp, !inject_Z_mult, pow2_inject
    in Hval by lia.
  change (inject_Z (2 ^ 53)) with (9007199254740992 # 1)%Q in Hval.
  change (inject_Z 2) with (2 # 1)%Q in Hval.
  subst x y. cbn [value cond_Zopp].
  set (t := (2 ^ (ex - 53))%Q).
  assert (0 < t)%Q as Ht by apply pow2_pos.
  assert (2 ^ e * 2 ^ ey == 2 ^ c * t)%Q as Hp1.
  { subst t. rewrite <- !pow2_add. by replace (e + ey) with (c + (ex - 53)) by lia. }
  assert (2 ^ ex == (9007199254740992 # 1) * t)%Q as Hp2.
  { subst t. replace ex with (53 + (ex - 53)) at 1 by lia. by rewrite pow2_add. }
  assert (inject_Z (Z.pos m) * 2 ^ e * (inject_Z (Z.pos my) * 2 ^ ey)
          == inject_Z (Z.pos m) * inject_Z (Z.pos my) * (2 ^ e * 2 ^ ey))%Q as ->
    by ring.
  rewrite Hp1, Hp2. apply Qabs_Qle_condition. unfold eps.
  set (M := inject_Z (Z.pos m)) in *. set (Y := inject_Z (Z.pos my)) in *.
  set (X := inject_Z (Z.pos mx)) in *. set (C := (2 ^ c)%Q) in *.
  split; nra.
Qed.

(** Multiplication is accurate to one part in [2 ^ 52]. *)
Lemma value_mul mx ex my ey :
  2 ^ 52 ≤ Z.pos mx < 2 ^ 53 → 2 ^ 52 ≤ Z.pos my < 2 ^ 53 →
  -400 ≤ ex ≤ 400 → -400 ≤ ey ≤ 400 →
  let x := S754_finite false mx ex in
  let y := S754_finite false my ey in
  ∃ m e,
    SFmul 53 1024 x y = S754_finite false m e
    ∧ 2 ^ 52 ≤ Z.pos m < 2 ^ 53
    ∧ ex + ey + 52 ≤ e ≤ ex + ey + 54
    ∧ (Qabs (value (S754_finite false m e) - value x * value y)
       <= value x * value y * eps)%Q.
Proof.
  intros Hmx Hmy Hex Hey x y.
  destruct (SFmul_spec false mx ex false my ey Hmx Hmy Hex Hey)
    as (m & e & c & Hres & Hm & Hc & He & Hval).
  exists m, e. split; [done|]. split; [done|]. split; [lia|].
  assert (Z.abs (2 ^ 52 * (Z.pos m * 2 ^ c - Z.pos mx * Z.pos my))
          ≤ Z.pos mx * Z.pos my) as Hval'.
  { rewrite Z.abs_mul. change (Z.abs (2 ^ 52)) with (2 ^ 52). done. }
  apply abs_bound_Q in Hval'.
  rewrite <- Z.add_opp_r, !inject_Z_mult, inject_Z_plus, inject_Z_opp,
    !inject_Z_mult, !pow2_inject in Hval' by lia.
  change (2 ^ 52)%Q with (4503599627370496 # 1)%Q in Hval'.
  subst x y. cbn [value cond_Zopp].
  set (t := (2 ^ (ex + ey))%Q).
  assert (0 < t)%Q as Ht by apply pow2_pos.
  assert (2 ^ e == 2 ^ c * t)%Q as Hp1.
  { subst t. rewrite <- pow2_add. by replace e with (c + (ex + ey)) by lia. }
  assert (inject_Z (Z.pos mx) * 2 ^ ex * (inject_Z (Z.pos my) * 2 ^ ey)
          == inject_Z (Z.pos mx) * inject_Z (Z.pos my) * t)%Q as ->.
  { subst t. rewrite pow2_add. ring. }
  rewrite Hp1. apply Qabs_Qle_condition. unfold eps.
  set (M := inject_Z (Z.pos m)) in *. set (Y := inject_Z (Z.pos my)) in *.
  set (X := inject_Z (Z.pos mx)) in *. set (C := (2 ^ c)%Q) in *.
  split; nra.
Qed.

(** Truncation is the integer part. *)
Lemma truncate_spec m e :
  (inject_Z (truncate (S754_finite false m e)) <= value (S754_finite false m e)
   < inject_Z (truncate (S754_finite false m e)) + 1)%Q.
Proof.
  cbn [truncate value cond_Zopp]. destruct (Z.leb_spec 0 e) as [He|He].
  - rewrite inject_Z_mult, pow2_inject by done. split; lra.
  - set (P := 2 ^ (- e)).
    assert (0 < P) as HP by (apply Z.pow_pos_nonneg; lia).
    pose proof (Z_div_mod_eq_full (Z.pos m) P) as Hdiv.
    pose proof (Z.mod_pos_bound (Z.pos m) P HP) as Hmod.
    set (q := Z.pos m / P) in *. set (r := Z.pos m mod P) in *.
    assert (inject_Z (Z.pos m) == inject_Z P * inject_Z q + inject_Z r)%Q as Hm.
    { by rewrite <- inject_Z_mult, <- inject_Z_plus, <- Hdiv. }
    assert (0 <= inject_Z r)%Q as Hr0 by (change 0%Q with (inject_Z 0); rewrite <- Zle_Qle; lia).
    assert (inject_Z r + 1 <= inject_Z P)%Q as Hr1.
    { change 1%Q with (inject_Z 1). rewrite <- inject_Z_plus, <- Zle_Qle. lia. }
    assert (inject_Z P * 2 ^ e == 1)%Q as Hone.
    { subst P. rewrite pow2_inject by lia. apply pow2_cancel. }
    assert (0 < 2 ^ e)%Q as Ht by apply pow2_pos.
    rewrite Hm. set (t := (2 ^ e)%Q) in *.
    set (Pq := inject_Z P) in *. set (Q1 := inject_Z q) in *. set (R := inject_Z r) in *.
    assert ((Pq * Q1 + R) * t == Q1 * (Pq * t) + R * t)%Q as -> by ring.
    rewrite Hone.
    assert (0 <= R * t)%Q as H0 by (apply Qmult_le_0_compat; lra).
    assert ((R + 1) * t <= Pq * t)%Q as H1 by (apply Qmult_le_compat_r; lra).
    rewrite Hone in H1. split; lra.
Qed.

Lemma b64_spec n :
  0 < n < 2 ^ 53 →
  ∃ m e, b64 n = S754_finite false m e
         ∧ 2 ^ 52 ≤ Z.pos m < 2 ^ 53
         ∧ -52 ≤ e ≤ 0
         ∧ (value (S754_finite false m e) == inject_Z n)%Q.
Proof.
  intros Hn. destruct (binary_normalize_small n) as (m & e & Hres & Hm & He & Hv);
    [lia|lia|].
  assert ((n <? 0) = false) as Hs by (apply Z.ltb_ge; lia). rewrite Hs in Hres.
  exists m, e. split; [done|]. split; [done|]. split; [done|].
  apply value_scaled; [|lia]. rewrite Hv. f_equal. lia.
Qed.

(** *** The scaling arithmetic *)

Lemma of_int_small n :
  Z.abs n < 2 ^ 53 →
  PyFloat.of_int n = Ok (b64 n)
  ∧ (n = 0 ∧ b64 n = S754_zero false
     ∨ ∃ m e, b64 n = S754_finite (n <? 0) m e
              ∧ 2 ^ 52 ≤ Z.pos m < 2 ^ 53 ∧ -52 ≤ e ≤ 0).
Proof.
  intros Hn. unfold PyFloat.of_int, PyFloat.prec, PyFloat.emax, b64.
  destruct (Z.eq_dec n 0) as [->|Hne].
  - split; [done|]. by left.
  - destruct (binary_normalize_small n Hne Hn) as (m & e & Hres & Hm & He & _).
    rewrite Hres. split; [done|]. right. by exists m, e.
Qed.

Lemma to_int_truncate x :
  match x with S754_finite _ _ _ | S754_zero _ => True | _ => False end →
  PyFloat.to_int x = Ok (truncate x).
Proof. by destruct x. Qed.

Lemma scale_spec w h larger_edge :
  0 < w < 2 ^ 53 → 0 < h < 2 ^ 53 → Z.abs larger_edge < 2 ^ 53 →
  scale w h larger_edge = Ok (scaled_dims w h larger_edge).
Proof.
  intros Hw Hh HE. unfold scale, scaled_dims.
  destruct (of_int_small w) as [-> [[? _]|(mw & ew & Hfw & Hmw & Hew)]]; [lia|lia|].
  destruct (of_int_small h) as [-> [[? _]|(mh & eh & Hfh & Hmh & Heh)]]; [lia|lia|].
  destruct (of_int_small larger_edge HE) as [HfE HE'].
  cbn [mbind result_bind].
  unfold PyFloat.truediv, PyFloat.mul, PyFloat.prec, PyFloat.emax.
  rewrite Hfw, Hfh. cbn [PyFloat.is_zero mbind result_bind].
  destruct (SFdiv_spec (w <? 0) mw ew (h <? 0) mh eh) as (mr & er & c & Hr & Hmr & Hc & Her & _);
    [done|done|lia|lia|].
  rewrite !Hr. set (sr := xorb (w <? 0) (h <? 0)).
  destruct (w >? h); rewrite HfE; cbn [PyFloat.is_zero mbind result_bind].
  - destruct HE' as [[-> ->]|(mE & eE & -> & HmE & HeE)].
    + reflexivity.
    + destruct (SFdiv_spec (larger_edge <? 0) mE eE sr mr er) as (m & e & ? & -> & _);
        [done|done|lia|lia|].
      reflexivity.
  - destruct HE' as [[-> ->]|(mE & eE & -> & HmE & HeE)].
    + reflexivity.
    + destruct (SFmul_spec (larger_edge <? 0) mE eE sr mr er) as (m & e & ? & -> & _);
        [done|done|lia|lia|].
      reflexivity.
Qed.

Lemma of_int_Ok n f : PyFloat.of_int n = Ok f → f = b64 n.
Proof.
  unfold PyFloat.of_int, b64, PyFloat.prec, PyFloat.emax.
  destruct (binary_normalize 53 1024 n 0 false); congruence.
Qed.

Lemma truediv_Ok x y z : PyFloat.truediv x y = Ok z → z = SFdiv 53 1024 x y.
Proof.
  unfold PyFloat.truediv, PyFloat.prec, PyFloat.emax.
  destruct (PyFloat.is_zero y); congruence.
Qed.

Lemma to_int_Ok x n : PyFloat.to_int x = Ok n → n = truncate x.
Proof. destruct x; simpl; congruence. Qed.

(** Whenever the scaling returns a size, it is the size of the formula. *)
Lemma scale_Ok_inv w h larger_edge new_w new_h :
  scale w h larger_edge = Ok (new_w, new_h) →
  (new_w, new_h) = scaled_dims w h larger_edge.
Proof.
  unfold scale, scaled_dims, mbind, result_bind.
  destruct (PyFloat.of_int w) as [fw|] eqn:Hw; [|done].
  destruct (PyFloat.of_int h) as [fh|] eqn:Hh; [|done].
  destruct (PyFloat.truediv fw fh) as [ratio|] eqn:Hr; [|done].
  apply of_int_Ok in Hw, Hh. subst fw fh. apply truediv_Ok in Hr. subst ratio.
  destruct (w >? h).
  - destruct (PyFloat.of_int larger_edge) as [fE|] eqn:HE; [|done].
    apply of_int_Ok in HE. subst fE.
    destruct (PyFloat.truediv _ _) as [q|] eqn:Hq; [|done].
    apply truediv_Ok in Hq. subst q.
    destruct (PyFloat.to_int _) as [n|] eqn:Hn; [|done].
    apply to_int_Ok in Hn. congruence.
  - destruct (PyFloat.of_int larger_edge) as [fE|] eqn:HE; [|done].
    apply of_int_Ok in HE. subst fE.
    destruct (PyFloat.to_int _) as [n|] eqn:Hn; [|done].
    apply to_int_Ok in Hn. unfold PyFloat.mul, PyFloat.prec, PyFloat.emax in Hn.
    congruence.
Qed.

(** *** Bounds on the scaled size *)

Lemma bound_mul (W H E R P N : Q) :
  (1 <= W → W <= H → 1 <= E → E * W <= 281474976710656 →
   - (W * eps) <= R * H - W <= W * eps →
   - (E * R * eps) <= P - E * R <= E * R * eps →
   N <= P < N + 1 →
   - H - 1 < N * H - E * W < 1)%Q.
Proof.
  unfold eps. intros HW HWH HE HEW Ha Hb Hc.
  assert (0 < H)%Q as HH by lra.
  assert (0 <= E * W)%Q as HEW0 by (clear - HW HE; nra).
  assert (E * (R * H) <= E * (W + W * (1 # 4503599627370496)))%Q as H1
    by (clear - Ha HE; nra).
  assert (E * (W - W * (1 # 4503599627370496)) <= E * (R * H))%Q as H2
    by (clear - Ha HE; nra).
  assert (P * H <= (E * R + E * R * (1 # 4503599627370496)) * H)%Q as H3
    by (clear - Hb HH; nra).
  assert ((E * R - E * R * (1 # 4503599627370496)) * H <= P * H)%Q as H4
    by (clear - Hb HH; nra).
  assert (N * H <= P * H)%Q as H5 by (clear - Hc HH; nra).
  assert (P * H < N * H + H)%Q as H6 by (clear - Hc HH; nra).
  clear Ha Hb Hc.
  split; lra.
Qed.

Lemma bound_div (W H E R V N : Q) :
  (1 <= H → H <= W → 1 <= E → E * H <= 281474976710656 →
   - (W * eps) <= R * H - W <= W * eps →
   - (E * eps) <= V * R - E <= E * eps →
   0 <= V →
   N <= V < N + 1 →
   - W - 1 < N * W - E * H < 1)%Q.
Proof.
  unfold eps. intros HH HW HE HEH Ha Hb HV Hc.
  assert (0 < W)%Q as HW0 by lra.
  assert (0 <= E * H)%Q as HEH0 by (clear - HH HE; nra).
  assert ((E - E * (1 # 4503599627370496)) * H <= V * R * H)%Q as H1
    by (clear - Hb HH; nra).
  assert (V * R * H <= (E + E * (1 # 4503599627370496)) * H)%Q as H2
    by (clear - Hb HH; nra).
  assert (V * (W - W * (1 # 4503599627370496)) <= V * (R * H))%Q as H3
    by (clear - Ha HV; nra).
  assert (V * (R * H) <= V * (W + W * (1 # 4503599627370496)))%Q as H4
    by (clear - Ha HV; nra).
  assert (N * W <= V * W)%Q as H5 by (clear - Hc HW0; nra).
  assert (V * W < N * W + W)%Q as H6 by (clear - Hc HW0; nra).
  clear Ha Hb Hc.
  split; lra.
Qed.

Lemma size_in_Q n : 0 < n → (1 <= inject_Z n)%Q.
Proof. intros Hn. change 1%Q with (inject_Z 1). rewrite <- Zle_Qle. lia. Qed.

Lemma area_in_Q a b :
  a * b ≤ max_area → (inject_Z a * inject_Z b <= 281474976710656)%Q.
Proof.
  unfold max_area. intros H. rewrite <- inject_Z_mult.
  change 281474976710656%Q with (inject_Z (2 ^ 48)). by rewrite <- Zle_Qle.
Qed.

Lemma value_nonneg m e : (0 <= value (S754_finite false m e))%Q.
Proof.
  cbn [value cond_Zopp]. apply Qmult_le_0_compat.
  - change 0%Q with (inject_Z 0). rewrite <- Zle_Qle. lia.
  - apply Qlt_le_weak, pow2_pos.
Qed.

Lemma truncate_nonneg m e : 0 ≤ truncate (S754_finite false m e).
Proof.
  cbn [truncate cond_Zopp]. destruct (Z.leb_spec 0 e).
  - apply Z.mul_nonneg_nonneg; [lia|]. apply Z.pow_nonneg. lia.
  - apply Z.div_pos; [lia|]. apply Z.pow_pos_nonneg; lia.
Qed.

(** Between the integers that a comparison in [Q] is about. *)
Lemma between_in_Z a b c :
  (- inject_Z b - 1 < inject_Z a * inject_Z b - inject_Z c < 1)%Q →
  - b ≤ a * b - c ≤ 0.
Proof.
  intros [Hlo Hhi].
  assert (inject_Z (- b - 1) < inject_Z (a * b - c))%Q as Hlo'.
  { unfold Z.sub. rewrite !inject_Z_plus, !inject_Z_opp, inject_Z_mult.
    change (inject_Z 1) with 1%Q. lra. }
  assert (inject_Z (a * b - c) < inject_Z 1)%Q as Hhi'.
  { unfold Z.sub. rewrite inject_Z_plus, inject_Z_opp, inject_Z_mult.
    change (inject_Z 1) with 1%Q. lra. }
  rewrite <- Zlt_Qlt in Hlo', Hhi'. lia.
Qed.

(** The scaled size, away from the degenerate cases: the larger edge is
    exact, and the other one is the integer part of the exact quotient or
    one less. *)
Lemma scaled_dims_bounds w h E :
  0 < w → 0 < h → 0 < E → E * Z.max w h ≤ max_area →
  if w >? h
  then (scaled_dims w h E).1 = E
       ∧ 0 ≤ (scaled_dims w h E).2
       ∧ - w ≤ (scaled_dims w h E).2 * w - E * h ≤ 0
  else (scaled_dims w h E).2 = E
       ∧ 0 ≤ (scaled_dims w h E).1
       ∧ - h ≤ (scaled_dims w h E).1 * h - E * w ≤ 0.
Proof.
  intros Hw Hh HE Harea.
  pose proof (size_in_Q w Hw) as HwQ. pose proof (size_in_Q h Hh) as HhQ.
  pose proof (size_in_Q E HE) as HEQ.
  assert (E * w ≤ max_area ∧ E * h ≤ max_area) as [Hew Heh'] by nia.
  pose proof (area_in_Q E w Hew) as HewQ. pose proof (area_in_Q E h Heh') as HehQ.
  unfold max_area in *.
  destruct (b64_spec w) as (mw & ew & Hfw & Hmw & Hew' & Hvw); [nia|].
  destruct (b64_spec h) as (mh & eh & Hfh & Hmh & Heh & Hvh); [nia|].
  destruct (b64_spec E) as (mE & eE & HfE & HmE & HeE & HvE); [nia|].
  unfold scaled_dims. rewrite Hfw, Hfh, HfE.
  destruct (value_div mw ew mh eh) as (mr & er & Hr & Hmr & Her & Hvr);
    [done|done|lia|lia|].
  rewrite Hr. rewrite Hvw, Hvh in Hvr. apply Qabs_Qle_condition in Hvr.
  destruct (Z.gtb_spec w h) as [Hgt|Hle]; cbn [fst snd].
  - destruct (value_div mE eE mr er) as (m & e & Hq & Hm & He & Hvq);
      [done|done|lia|lia|].
    rewrite Hq. rewrite HvE in Hvq. apply Qabs_Qle_condition in Hvq.
    split; [done|]. split; [apply truncate_nonneg|].
    apply between_in_Z. rewrite inject_Z_mult.
    apply (bound_div _ _ _ (value (S754_finite false mr er))
             (value (S754_finite false m e))); try done.
    + rewrite <- Zle_Qle. lia.
    + apply value_nonneg.
    + apply truncate_spec.
  - destruct (value_mul mE eE mr er) as (m & e & Hp & Hm & He & Hvp);
      [done|done|lia|lia|].
    rewrite Hp. rewrite HvE in Hvp. apply Qabs_Qle_condition in Hvp.
    split; [done|]. split; [apply truncate_nonneg|].
    apply between_in_Z. rewrite inject_Z_mult.
    apply (bound_mul _ _ _ (value (S754_finite false mr er))
             (value (S754_finite false m e))); try done.
    + rewrite <- Zle_Qle. lia.
    + apply truncate_spec.
Qed.

(** *** Aspect ratios *)

Lemma inject_Z_pos n : 0 < n → (0 < inject_Z n)%Q.
Proof. intros H. change 0%Q with (inject_Z 0). by rewrite <- Zlt_Qlt. Qed.

Lemma inject_Z_nonzero n : 0 < n → ¬ (inject_Z n == 0)%Q.
Proof. intros H Heq. pose proof (inject_Z_pos n H). lra. Qed.

Lemma Qdiv_le_Z p q r s :
  0 < q → 0 < s → p * s ≤ r * q →
  (inject_Z p / inject_Z q <= inject_Z r / inject_Z s)%Q.
Proof.
  intros Hq Hs H.
  apply Qle_shift_div_l; [by apply inject_Z_pos|].
  assert (inject_Z p / inject_Z q * inject_Z s
          == inject_Z (p * s) / inject_Z q)%Q as ->.
  { rewrite inject_Z_mult. field. by apply inject_Z_nonzero. }
  apply Qle_shift_div_r; [by apply inject_Z_pos|].
  rewrite <- inject_Z_mult, <- Zle_Qle. done.
Qed.

Lemma ratio_diff a b c d :
  0 < b → 0 < d →
  (inject_Z a / inject_Z b - inject_Z c / inject_Z d
   == inject_Z (a * d - b * c) / inject_Z (b * d))%Q.
Proof.
  intros Hb Hd. unfold Z.sub.
  rewrite inject_Z_plus, inject_Z_opp, !inject_Z_mult.
  field. split; by apply inject_Z_nonzero.
Qed.

(** The bound on the aspect ratio, from the bound on the scaled edge. *)
Lemma aspect_error_bound w h new_w new_h s t :
  0 < h → 0 < new_h → 0 < t →
  Z.abs (new_w * h - new_h * w) * t ≤ s * (new_h * h) →
  (aspect_error w h new_w new_h <= inject_Z s / inject_Z t)%Q.
Proof.
  intros Hh Hnh Ht Hb. unfold aspect_error.
  rewrite <- (Z.abs_eq t) in Hb at 1 by lia. rewrite <- Z.abs_mul in Hb.
  rewrite ratio_diff by done. apply Qabs_Qle_condition.
  assert (0 < new_h * h) by lia.
  split.
  - assert (- (inject_Z s / inject_Z t) == inject_Z (- s) / inject_Z t)%Q as ->.
    { rewrite inject_Z_opp. field. by apply inject_Z_nonzero. }
    apply Qdiv_le_Z; lia.
  - apply Qdiv_le_Z; lia.
Qed.

(** C2, as the code has it.  For a positive target and positive sizes
    with [larger_edge * max(w, h) <= max_area], the larger edge of the
    output is [larger_edge] and the other edge is at most one pixel short
    of the exact proportion: the ratio of the shorter to the longer edge
    is off by at most [1 / larger_edge].  For an image that is not wider
    than high this gives the tolerance of the specification,
    [1 / min(new_w, new_h)]; for a wider image the aspect ratio [w / h] is
    only within [(w / h) / min(new_w, new_h)]. *)
Theorem scaled_size_within_tolerance w h larger_edge :
  0 < w → 0 < h → 0 < larger_edge →
  larger_edge * Z.max w h ≤ max_area →
  ∃ new_w new_h,
    scale w h larger_edge = Ok (new_w, new_h)
    ∧ Z.max new_w new_h = larger_edge
    ∧ 0 ≤ Z.min new_w new_h
    ∧ (w ≤ h → Z.abs (new_w * h - new_h * w) ≤ h)
    ∧ (h < w → Z.abs (new_h * w - new_w * h) ≤ w)
    ∧ (w ≤ h → 0 < new_w → aspect_tolerance w h new_w new_h)
    ∧ (h < w → 0 < new_h →
       (aspect_error w h new_w new_h
        <= inject_Z w / inject_Z h / inject_Z (Z.min new_w new_h))%Q).
Proof.
  intros Hw Hh HE Harea.
  pose proof (scaled_dims_bounds w h larger_edge Hw Hh HE Harea) as Hb.
  assert (scale w h larger_edge = Ok (scaled_dims w h larger_edge)) as Hs.
  { unfold max_area in *. apply scale_spec; nia. }
  destruct (scaled_dims w h larger_edge) as [new_w new_h]. cbn [fst snd] in Hb.
  exists new_w, new_h. split; [done|].
  destruct (Z.gtb_spec w h) as [Hgt|Hle].
  - destruct Hb as (-> & Hnh & Hd).
    assert (new_h ≤ larger_edge) as Hmax by nia.
    split; [lia|]. split; [lia|]. split; [lia|]. split; [lia|]. split; [lia|].
    intros _ Hpos. rewrite Z.min_r by lia.
    assert (inject_Z w / inject_Z h / inject_Z new_h
            == inject_Z w / inject_Z (h * new_h))%Q as ->.
    { rewrite inject_Z_mult. field. split; apply inject_Z_nonzero; lia. }
    apply aspect_error_bound; nia.
  - destruct Hb as (-> & Hnw & Hd).
    assert (new_w ≤ larger_edge) as Hmax by nia.
    split; [lia|]. split; [lia|]. split; [lia|]. split; [lia|]. split; [|lia].
    intros _ Hpos. unfold aspect_tolerance. rewrite Z.min_l by lia.
    change 1%Q with (inject_Z 1). apply aspect_error_bound; nia.
Qed.

(** The tolerance of the specification fails for a 400 x 100 image scaled
    to 163: the output is 163 x 40, and 163/40 is 0.075 away from 4,
    more than 1/40. *)
Lemma tolerance_fails_for_a_wide_image :
  scale 400 100 163 = Ok (163, 40)
  ∧ ¬ (Z.max 163 40 = 163 ∧ aspect_tolerance 400 100 163 40).
Proof.
  split; [vm_compute; reflexivity|].
  intros [_ H]. vm_compute in H. apply H. reflexivity.
Qed.


(** *** Exact cases *)

Lemma shr_1_double k :
  0 < k →
  shr_1 (Build_shr_record (2 * k) false false) = Build_shr_record k false false.
Proof. destruct k as [|p|p]; try lia. reflexivity. Qed.

(** Shifting out zeros loses nothing. *)
Lemma iter_pos_shr_1_exact n k :
  0 < k →
  SpecFloat.iter_pos shr_1 n (Build_shr_record (2 ^ Z.pos n * k) false false)
  = Build_shr_record k false false.
Proof.
  revert k. induction n as [n IH|n IH|]; intros k Hk; cbn [SpecFloat.iter_pos].
  - assert (0 < 2 ^ Z.pos n) as Hn by (apply Z.pow_pos_nonneg; lia).
    rewrite pow2_xI.
    replace (2 * (2 ^ Z.pos n * 2 ^ Z.pos n) * k)
      with (2 * (2 ^ Z.pos n * (2 ^ Z.pos n * k))) by lia.
    rewrite shr_1_double, IH, IH by nia. done.
  - assert (0 < 2 ^ Z.pos n) as Hn by (apply Z.pow_pos_nonneg; lia).
    rewrite pow2_xO.
    replace (2 ^ Z.pos n * 2 ^ Z.pos n * k)
      with (2 ^ Z.pos n * (2 ^ Z.pos n * k)) by lia.
    rewrite IH, IH by nia. done.
  - change (2 ^ 1) with 2. by apply shr_1_double.
Qed.

(** A product whose mantissa ends in 52 zeros needs no rounding. *)
Lemma binary_round_aux_shifted s m e :
  Zdigits2 (Z.pos m) = 53 → -1022 ≤ e ≤ 971 →
  binary_round_aux 53 1024 s (Z.pos m * 2 ^ 52) (e - 52) loc_Exact
  = S754_finite s m e.
Proof.
  intros Hd He. unfold binary_round_aux, shr_fexp.
  assert (Zdigits2 (Z.pos m * 2 ^ 52) = 105) as ->.
  { pose proof (Zdigits2_bounds (Z.pos m) ltac:(lia)) as Hb. rewrite Hd in Hb.
    apply Zdigits2_unique; [lia|]. change (105 - 1) with (52 + 52).
    change 105 with (53 + 52). rewrite !Z.pow_add_r by lia.
    change (53 - 1) with 52 in Hb. nia. }
  assert (fexp 53 1024 (105 + (e - 52)) - (e - 52) = 52) as ->
    by (unfold fexp, emin; lia).
  cbn [shr shr_record_of_loc].
  replace (Z.pos m * 2 ^ 52) with (2 ^ 52 * Z.pos m) by lia.
  rewrite iter_pos_shr_1_exact by lia.
  cbn [loc_of_shr_record shr_m shr_r shr_s round_nearest_even]. rewrite Hd.
  assert (fexp 53 1024 (53 + (e - 52 + 52)) - (e - 52 + 52) = 0) as ->
    by (unfold fexp, emin; lia).
  cbn [shr shr_record_of_loc shr_m].
  assert ((e - 52 + 52 <=? 1024 - 53) = true) as -> by (apply Z.leb_le; lia).
  f_equal. lia.
Qed.

Lemma SFmul_one s m e :
  2 ^ 52 ≤ Z.pos m < 2 ^ 53 → -1022 ≤ e ≤ 971 →
  SFmul 53 1024 (S754_finite s m e) float_one = S754_finite s m e.
Proof.
  intros Hm He. unfold SFmul, float_one.
  change (Z.pos (m * 2 ^ 52)) with (Z.pos m * 2 ^ 52).
  replace (e + -52) with (e - 52) by lia.
  rewrite xorb_false_r. apply binary_round_aux_shifted; [|done].
  apply Zdigits2_unique; [lia|]. change (53 - 1) with 52. lia.
Qed.

Lemma new_location_zero n : new_location n 0 = loc_Exact.
Proof.
  unfold new_location, new_location_even, new_location_odd.
  destruct (Z.even n); reflexivity.
Qed.

(** A double divided by itself is [1.0]. *)
Lemma SFdiv_same s m e :
  2 ^ 52 ≤ Z.pos m < 2 ^ 53 →
  SFdiv 53 1024 (S754_finite s m e) (S754_finite s m e) = float_one.
Proof.
  intros Hm. unfold SFdiv, SFdiv_core_binary.
  assert (Zdigits2 (Z.pos m) = 53) as ->
    by (apply Zdigits2_unique; [lia|change (53 - 1) with 52; lia]).
  replace (53 + e - (53 + e)) with 0 by lia. replace (e - e) with 0 by lia.
  change (Z.min (fexp 53 1024 0) 0) with (-53).
  change (0 - -53) with 53. cbv iota.
  rewrite Z.shiftl_mul_pow2 by lia.
  pose proof (Z_div_mod (Z.pos m * 2 ^ 53) (Z.pos m) ltac:(lia)) as Hdiv.
  destruct (Z.div_eucl (Z.pos m * 2 ^ 53) (Z.pos m)) as [q r]. destruct Hdiv as [Hq Hr].
  assert (q = 2 ^ 53 ∧ r = 0) as [-> ->].
  { apply (Z.div_mod_unique (Z.pos m)); [lia|lia|lia]. }
  rewrite new_location_zero, xorb_nilpotent.
  vm_compute. reflexivity.
Qed.

Lemma truncate_b64 n : Z.abs n < 2 ^ 53 → truncate (b64 n) = n.
Proof.
  intros Hn. destruct (Z.eq_dec n 0) as [->|Hne]; [reflexivity|].
  unfold b64.
  destruct (binary_normalize_small n Hne Hn) as (m & e & -> & Hm & He & Hv).
  cbn [truncate]. rewrite Hv.
  assert (0 < 2 ^ (- e)) as Hp by (apply Z.pow_pos_nonneg; lia).
  assert ((if 0 <=? e then Z.abs n * 2 ^ (- e) * 2 ^ e
           else Z.abs n * 2 ^ (- e) / 2 ^ (- e)) = Z.abs n) as ->.
  { destruct (Z.leb_spec 0 e).
    - assert (e = 0) as -> by lia. simpl. lia.
    - apply Z.div_mul. lia. }
  destruct (Z.ltb_spec n 0); simpl; lia.
Qed.

(** X5. A square image is scaled to a square: both edges of the new size
    are exactly [larger_edge].  The ratio of equal edges is the double
    [1.0], and multiplying by it and truncating lose nothing. *)
Theorem square_image_scales_exactly w larger_edge :
  0 < w < 2 ^ 53 → Z.abs larger_edge < 2 ^ 53 →
  scale w w larger_edge = Ok (larger_edge, larger_edge).
Proof.
  intros Hw HE. rewrite scale_spec by done. unfold scaled_dims.
  rewrite Z.gtb_ltb, Z.ltb_irrefl. f_equal. f_equal.
  destruct (binary_normalize_small w) as (mw & ew & Hfw & Hmw & Hew & _); [lia|lia|].
  unfold b64 at 2 3. rewrite Hfw, SFdiv_same by done.
  destruct (Z.eq_dec larger_edge 0) as [->|Hne]; [reflexivity|].
  rewrite <- (truncate_b64 larger_edge HE) at 2. f_equal.
  unfold b64.
  destruct (binary_normalize_small larger_edge Hne HE) as (m & e & -> & Hm & He & _).
  apply SFmul_one; [done|lia].
Qed.

(** ** Scheduling *)

Lemma pick_perm {A} i (l : list A) x rest :
  pick i l = Some (x, rest) → l ≡ₚ x :: rest.
Proof.
  revert i x rest. induction l as [|y l IH]; intros [|i] x rest H; simplify_eq/=.
  - done.
  - destruct (pick i l) as [[z r]|] eqn:E; simplify_eq/=.
    rewrite (IH _ _ _ E). apply Permutation_swap.
Qed.

Lemma pick_lt {A} i (l : list A) :
  (i < length l)%nat → ∃ x rest, pick i l = Some (x, rest).
Proof.
  revert i. induction l as [|y l IH]; intros [|i] H; simpl in *; try lia; eauto.
  destruct (IH i) as (x & rest & ->); [lia|]. eauto.
Qed.

Lemma completion_order_perm {A} choices (l : list A) :
  completion_order choices (length l) l ≡ₚ l.
Proof.
  remember (length l) as n eqn:Hn. revert choices l Hn.
  induction n as [|n IH]; intros choices l Hn; simpl.
  - by destruct l.
  - set (i := match choices with c :: _ => (c mod length l)%nat | [] => 0%nat end).
    assert (i < length l)%nat as Hi.
    { subst i. destruct choices; [lia|]. apply Nat.mod_upper_bound. lia. }
    destruct (pick_lt i l Hi) as (x & rest & Hp). rewrite Hp.
    pose proof (pick_perm _ _ _ _ Hp) as Hperm.
    rewrite Hperm. constructor. apply IH.
    apply Permutation_length in Hperm. simpl in Hperm. lia.
Qed.

(** ** The file system under the tasks *)

Lemma evolves_refl m dsts : evolves m m dsts.
Proof. split; [|split]; auto. Qed.

Lemma evolves_trans m1 m2 m3 d1 d2 :
  evolves m1 m2 d1 → evolves m2 m3 d2 → evolves m1 m3 (d1 ++ d2).
Proof.
  intros (Hd1 & Hf1 & Hn1) (Hd2 & Hf2 & Hn2). split; [|split].
  - intros p. by rewrite Hd1, Hd2.
  - auto.
  - intros p H3. destruct (Hn2 p H3) as [H2|[Hin Hf]].
    + destruct (Hn1 p H2) as [?|[Hin Hf]]; [by left|].
      right. split; [apply elem_of_app; by left|auto].
    + right. split; [apply elem_of_app; by right|done].
Qed.

Lemma evolves_write m p data :
  m !! p ≠ Some Dir → evolves m (<[p := File data]> m) [p].
Proof.
  intros Hp. split; [|split].
  - intros q. destruct (decide (p = q)) as [->|Hne].
    + rewrite lookup_insert_eq. split; [done|congruence].
    + by rewrite lookup_insert_ne.
  - unfold is_file. intros q H. destruct (decide (p = q)) as [->|Hne].
    + by rewrite lookup_insert_eq.
    + by rewrite lookup_insert_ne.
  - intros q Hq. destruct (decide (p = q)) as [->|Hne].
    + right. split; [set_solver|]. unfold is_file. by rewrite lookup_insert_eq.
    + left. by rewrite lookup_insert_ne in Hq.
Qed.

Lemma in_image_ext_set ext :
  ext ∈ image_ext_set ↔ ext = ".jpg" ∨ ext = ".png" ∨ ext = ".jpeg".
Proof.
  unfold image_ext_set. rewrite !elem_of_union, !elem_of_singleton. tauto.
Qed.

Section Properties.

Variable imdecode : bytes → option image.
Variable resample : image → Z → Z → list Z.
Variable imencode : string → image → bytes.
Variable has_encoder : string → bool.
Variable realpath : string → string.

Local Abbreviation resize_image_try :=
  (resize_image_try imdecode resample imencode has_encoder).
Local Abbreviation resize_image :=
  (resize_image imdecode resample imencode has_encoder).
Local Abbreviation run_tasks :=
  (run_tasks imdecode resample imencode has_encoder).
Local Abbreviation resize_image_dir :=
  (resize_image_dir imdecode resample imencode has_encoder).
Local Abbreviation main :=
  (main imdecode resample imencode has_encoder realpath).
Local Abbreviation returns_alone :=
  (returns_alone imdecode resample imencode has_encoder).
Local Abbreviation leaves_alone :=
  (leaves_alone imdecode resample imencode has_encoder).

(** *** [resize_image] *)

Lemma resize_image_not_file src dst E w :
  is_file (fs w) src = false →
  resize_image src dst E w
  = (Ok false, World (fs w) (trace w ++ [PrintFileNotExist src])).
Proof.
  intros H. unfold resize_image, isfile. munfold. simpl.
  rewrite H. reflexivity.
Qed.

Lemma resize_image_caught src dst E w ex w' :
  is_file (fs w) src = true →
  resize_image_try src dst E w = (Raise ex, w') →
  resize_image src dst E w
  = (Ok false, World (fs w') (trace w' ++ [PrintResizeFailed src ex])).
Proof.
  intros H Hr. unfold resize_image, isfile. munfold. simpl.
  rewrite H. simpl. rewrite Hr. reflexivity.
Qed.

Lemma resize_image_no_data src dst E w data :
  fs w !! src = Some (File data) →
  imdecode data = None →
  resize_image src dst E w
  = (Ok false,
     World (fs w) (trace w ++ [CallImread src; PrintResizeFailed src AttributeError])).
Proof.
  intros Hs Hd.
  unfold resize_image, resize_image_try, isfile, is_file,
    imread, shape.
  munfold. simpl. rewrite !Hs. simpl. rewrite !Hs, Hd. simpl.
  by rewrite <- app_assoc.
Qed.

Lemma resize_image_total src dst E w :
  ∃ b w', resize_image src dst E w = (Ok b, w').
Proof.
  unfold resize_image, isfile. munfold. simpl.
  destruct (is_file (fs w) src); simpl; [|eauto].
  destruct (resize_image_try src dst E w) as [[b|ex] w']; eauto.
Qed.

(** What a task does to the world, whatever it returns. *)
Lemma resize_image_effect src dst E w :
  ∃ b w' evs, resize_image src dst E w = (Ok b, w')
    ∧ trace w' = trace w ++ evs
    ∧ (b = false → fs w' = fs w)
    ∧ (b = true → is_file (fs w) src = true
         ∧ ((fs w !! dst = Some Dir ∧ fs w' = fs w)
            ∨ (fs w !! dst ≠ Some Dir
               ∧ ∃ data, fs w' = <[dst := File data]> (fs w)))).
Proof.
  unfold resize_image, resize_image_try, isfile, imread,
    shape, resize, imwrite, write_file.
  munfold. simpl.
  destruct (is_file (fs w) src) eqn:Hf; simpl.
  2:{ eexists _, _, _. split; [reflexivity|]. simpl. by repeat split. }
  repeat (case_match; simplify_eq/=);
    (eexists _, _, _; split; [reflexivity|]; simpl;
     split; [rewrite <- ?app_assoc; reflexivity|]; split; [try done|try done]).
  all: intros _; split; [done|].
  all: try (by left).
  all: right; split; [congruence|eauto].
Qed.

Lemma resize_image_evolves src dst E w :
  ∃ b w' evs, resize_image src dst E w = (Ok b, w')
    ∧ trace w' = trace w ++ evs
    ∧ evolves (fs w) (fs w') [dst]
    ∧ (fs w !! src = Some Dir → b = false)
    ∧ (b = true → fs w !! dst ≠ Some Dir → is_file (fs w') dst = true).
Proof.
  destruct (resize_image_effect src dst E w) as (b & w' & evs & Hr & Ht & Hf & Hs).
  exists b, w', evs. split; [done|]. split; [done|].
  destruct b.
  - destruct Hs as [Hsrc Hcases]; [done|]. split; [|split].
    + destruct Hcases as [[_ ->]|[Hnd [data ->]]];
        [apply evolves_refl|by apply evolves_write].
    + intros Hd. unfold is_file in Hsrc. by rewrite Hd in Hsrc.
    + intros _ Hnd. destruct Hcases as [[? _]|[_ [data ->]]]; [done|].
      unfold is_file. by rewrite lookup_insert_eq.
  - rewrite Hf by done. split; [apply evolves_refl|]. by split.
Qed.

(** *** The scan *)

Lemma scan_spec src dst names acc w :
  scan src dst names acc w = (Ok (acc ++ work_items (fs w) src dst names), w).
Proof.
  revert acc. induction names as [|n names IH]; intros acc.
  - unfold work_items. simpl. by rewrite app_nil_r.
  - cbn [scan]. unfold work_items, pending at 1, is_image_name. cbn [List.filter].
    destruct (decide ((splitext n).2 ∈ image_ext_set)) as [Hin|Hnin].
    + rewrite (bool_decide_eq_false_2 _) by (by intros ?).
      rewrite (bool_decide_eq_true_2 _ Hin). simpl.
      unfold isfile. munfold. simpl.
      destruct (is_file (fs w) (join dst n)); simpl.
      * apply IH.
      * rewrite IH. unfold work_items. by rewrite <- app_assoc.
    + rewrite (bool_decide_eq_true_2 _ Hnin).
      rewrite (bool_decide_eq_false_2 _ Hnin). simpl. apply IH.
Qed.

(** *** The pool and the collection loop *)

Lemma run_tasks_spec tasks E w :
  ∃ bs w' evs, run_tasks tasks E w = (Ok (Ok <$> bs), w')
    ∧ trace w' = trace w ++ evs
    ∧ evolves (fs w) (fs w') tasks.*2
    ∧ Forall2 (fun t b =>
                 (fs w !! t.1 = Some Dir → b = false)
                 ∧ (b = true → fs w !! t.2 ≠ Some Dir → is_file (fs w') t.2 = true))
              tasks bs.
Proof.
  revert w. induction tasks as [|[s d] tasks IH]; intros w.
  - exists [], w, []. simpl. rewrite app_nil_r.
    repeat split; auto using evolves_refl.
  - destruct (resize_image_evolves s d E w)
      as (b & w1 & evs1 & Hr & Ht1 & He1 & Hdir & Hok).
    destruct (IH w1) as (bs & w2 & evs2 & Hrs & Ht2 & He2 & Hall).
    exists (b :: bs), w2, (evs1 ++ evs2).
    cbn [run_tasks]. unfold run_task. munfold.
    rewrite Hr, Hrs. split; [done|].
    split; [by rewrite Ht2, Ht1, app_assoc|].
    split; [apply (evolves_trans _ _ _ [d] _ He1 He2)|].
    destruct He1 as (Hd1 & Hf1 & _), He2 as (Hd2 & Hf2 & _).
    constructor.
    + simpl. split; [done|]. intros Hb Hnd. apply Hf2. by apply Hok.
    + eapply Forall2_impl; [exact Hall|]. intros [s' d'] b' [Ha Hb]. simpl in *.
      split.
      * intros Hdir'. apply Ha. by apply Hd1.
      * intros Hb' Hnd. apply Hb; [done|]. intros Hd'. apply Hnd. by apply Hd1.
Qed.

Lemma count_ok_fail bs : count_ok bs + count_fail bs = Z.of_nat (length bs).
Proof.
  unfold count_ok, count_fail.
  induction bs as [|[] bs IH]; simpl in *; lia.
Qed.

Lemma count_ok_cons b bs :
  count_ok (b :: bs) = (if b then 1 else 0) + count_ok bs.
Proof. unfold count_ok. destruct b; simpl; lia. Qed.

Lemma count_fail_cons b bs :
  count_fail (b :: bs) = (if b then 0 else 1) + count_fail bs.
Proof. unfold count_fail. destruct b; simpl; lia. Qed.

Lemma collect_spec total bs ok_cnt fail_cnt w :
  collect total (Ok <$> bs) ok_cnt fail_cnt w
  = (Ok (ok_cnt + count_ok bs, fail_cnt + count_fail bs),
     World (fs w) (trace w ++ progress_events total bs ok_cnt fail_cnt)).
Proof.
  revert ok_cnt fail_cnt w.
  induction bs as [|b bs IH]; intros ok_cnt fail_cnt w; cbn [fmap list_fmap collect].
  - unfold count_ok, count_fail. munfold. simpl.
    rewrite !Z.add_0_r, app_nil_r. by destruct w.
  - rewrite count_ok_cons, count_fail_cons. munfold. cbn [progress_events].
    destruct b.
    + rewrite Z.add_0_l, Z.add_assoc.
      destruct ((ok_cnt + 1) mod 1000 =? 0); simpl; rewrite IH; simpl;
        by rewrite <- ?app_assoc.
    + rewrite Z.add_0_l, Z.add_assoc. simpl. rewrite IH. simpl.
      by rewrite <- app_assoc.
Qed.

(** *** [resize_image_dir] *)

Lemma resize_image_dir_no_source choices src dst E w :
  is_dir (fs w) src = false →
  resize_image_dir choices src dst E w
  = (Ok false, World (fs w) (trace w ++ [PrintDirNotExist src])).
Proof.
  intros H. unfold resize_image_dir, isdir. munfold. simpl.
  by rewrite H.
Qed.

(** The run from an existing source directory: the destination is
    prepared, the listing scanned, and every work item run and counted. *)
Lemma resize_image_dir_run choices src dst E w :
  is_dir (fs w) src = true →
  creatable (fs w) dst →
  let m0 := prepared (fs w) dst in
  let items := work_items m0 src dst (entries m0 src) in
  let total := Z.of_nat (length items) in
  let order := completion_order choices (length items) items in
  ∃ bs w1 evs,
    run_tasks order E (World m0 (trace w ++ [PrintTotal total])) = (Ok (Ok <$> bs), w1)
    ∧ trace w1 = (trace w ++ [PrintTotal total]) ++ evs
    ∧ evolves m0 (fs w1) order.*2
    ∧ Forall2 (fun t b =>
                 (m0 !! t.1 = Some Dir → b = false)
                 ∧ (b = true → m0 !! t.2 ≠ Some Dir → is_file (fs w1) t.2 = true))
              order bs
    ∧ resize_image_dir choices src dst E w
      = match items with
        | [] => (Ok true, World m0 (trace w ++ [PrintNoImage]))
        | _ => (Ok true,
                World (fs w1)
                  (trace w1 ++ progress_events total bs 0 0
                   ++ [PrintFinished (count_ok bs) (count_fail bs)]))
        end.
Proof.
  intros Hsrc Hdst m0 items total order.
  destruct (run_tasks_spec order E (World m0 (trace w ++ [PrintTotal total])))
    as (bs & w1 & evs & Hrun & Ht & Hev & Hall).
  cbn [fs trace] in Ht, Hev, Hall.
  exists bs, w1, evs. do 4 (split; [done|]).
  assert (∃ t, (if negb (is_dir (fs w) dst) then makedirs dst else mret ()) w
               = (Ok (), World m0 t) ∧ t = trace w) as (t & Hprep & ->).
  { subst m0. unfold prepared, makedirs. munfold.
    destruct (is_dir (fs w) dst) eqn:Hd; simpl.
    - exists (trace w). by destruct w.
    - destruct Hdst as [?|[Hne Hnone]]; [congruence|].
      destruct (String.eqb_spec dst "") as [?|_]; [done|].
      rewrite Hnone. eauto. }
  unfold resize_image_dir, isdir, listdir. munfold. simpl.
  rewrite Hsrc. simpl. munfold. rewrite Hprep. simpl.
  rewrite scan_spec. simpl. fold items.
  destruct items as [|it items'] eqn:Hitems; [done|].
  fold order. simpl in Hrun. fold total in Hrun |- *.
  cbn [fs trace]. rewrite Hrun. rewrite collect_spec. simpl.
  by rewrite <- app_assoc.
Qed.

Lemma resize_image_dir_no_destination choices src dst E w :
  is_dir (fs w) src = true →
  ¬ creatable (fs w) dst →
  ∃ ex, resize_image_dir choices src dst E w = (Raise ex, w).
Proof.
  intros Hsrc Hdst. unfold resize_image_dir, isdir, makedirs. munfold. simpl.
  rewrite Hsrc. simpl.
  destruct (is_dir (fs w) dst) eqn:Hd; simpl.
  { destruct Hdst. by left. }
  destruct (String.eqb_spec dst "") as [->|Hne]; [eauto|].
  destruct (fs w !! dst) eqn:Hl; [eauto|].
  destruct Hdst. by right.
Qed.

Lemma creatable_dec m dst : creatable m dst ∨ ¬ creatable m dst.
Proof.
  unfold creatable. destruct (is_dir m dst); [by left; left|].
  destruct (decide (dst = "")) as [->|?]; [right; by intros [|[]]|].
  destruct (m !! dst) eqn:E; [right; by intros [|[]]|left; by right].
Qed.

Lemma work_items_elem m src dst names s d :
  (s, d) ∈ work_items m src dst names
  ↔ ∃ n, n ∈ names ∧ pending m dst n = true ∧ s = join src n ∧ d = join dst n.
Proof.
  unfold work_items. rewrite list_elem_of_fmap. split.
  - intros (n & Heq & Hin). simplify_eq.
    apply list_elem_of_In, filter_In in Hin as [Hin Hp].
    exists n. by rewrite list_elem_of_In.
  - intros (n & Hin & Hp & -> & ->). exists n. split; [done|].
    apply list_elem_of_In, filter_In. by rewrite <- list_elem_of_In.
Qed.

(** *** The claims about [resize_image] *)

(** What [resize_image] asks of [cv2.resize] for a decoded image. *)
Lemma resize_image_calls_resize src dst E w data i new_w new_h :
  fs w !! src = Some (File data) →
  imdecode data = Some i →
  scale (cols i) (rows i) E = Ok (new_w, new_h) →
  ∃ b w' evs,
    resize_image src dst E w = (Ok b, w')
    ∧ trace w' = trace w ++ [CallImread src; CallResize new_w new_h] ++ evs.
Proof.
  intros Hs Hd Hscale.
  unfold resize_image, resize_image_try, isfile, is_file, imread, shape, resize,
    imwrite, write_file.
  munfold. simpl.
  repeat (progress (rewrite ?Hs, ?Hd, ?Hscale; simpl)).
  repeat (case_match; simplify_eq/=);
    (eexists _, _, _; split; [reflexivity|]; simpl;
     rewrite <- ?app_assoc; simpl; reflexivity).
Qed.

(** C1. For a decoded image of [w] by [h] pixels and a target
    [larger_edge], all of them integers that a double holds exactly, the
    scaling raises nothing and follows the formula: when [w > h] the width
    becomes [larger_edge] and the height the truncation of
    [larger_edge / (w / h)]; otherwise, square images included, the height
    becomes [larger_edge] and the width the truncation of
    [larger_edge * (w / h)], the quotients and the product being those of
    double precision.  This is the size [resize_image] passes to
    [cv2.resize].  For any integers whatever, a size that the scaling
    returns is the size of the formula.  200 x 100 at 160 gives 160 x 80,
    and 100 x 200 gives 80 x 160. *)
Theorem scale_follows_the_formula w h larger_edge :
  0 < w < 2 ^ 53 → 0 < h < 2 ^ 53 → Z.abs larger_edge < 2 ^ 53 →
  let ratio := SFdiv 53 1024 (b64 w) (b64 h) in
  let new_size :=
    if w >? h
    then (larger_edge, truncate (SFdiv 53 1024 (b64 larger_edge) ratio))
    else (truncate (SFmul 53 1024 (b64 larger_edge) ratio), larger_edge) in
  scale w h larger_edge = Ok new_size
  ∧ (∀ src dst data i world,
       fs world !! src = Some (File data) →
       imdecode data = Some i → cols i = w → rows i = h →
       ∃ b world' evs,
         resize_image src dst larger_edge world = (Ok b, world')
         ∧ trace world'
           = trace world ++ [CallImread src; CallResize new_size.1 new_size.2] ++ evs)
  ∧ (w = h → new_size.2 = larger_edge)
  ∧ (∀ w' h' E' new_w new_h,
       scale w' h' E' = Ok (new_w, new_h) → (new_w, new_h) = scaled_dims w' h' E')
  ∧ scale 200 100 160 = Ok (160, 80)
  ∧ scale 100 200 160 = Ok (80, 160).
Proof.
  intros Hw Hh HE ratio new_size.
  pose proof (scale_spec w h larger_edge Hw Hh HE) as Hs.
  unfold scaled_dims in Hs. fold ratio in Hs. fold new_size in Hs.
  split; [exact Hs|]. split; [|split; [|split]].
  - intros src dst data i world Hf Hd <- <-.
    apply (resize_image_calls_resize _ _ _ _ data i); [done|done|].
    rewrite Hs. by destruct new_size.
  - intros ->. subst new_size. by rewrite Z.gtb_ltb, Z.ltb_irrefl.
  - apply scale_Ok_inv.
  - split; vm_compute; reflexivity.
Qed.

(** C8. When the source path is not a regular file, [resize_image] prints
    the diagnostic of line 37 and returns [False].  It raises nothing,
    leaves the file system as it is, and the diagnostic is its only
    event: the image is neither read nor written. *)
Theorem source_missing_returns_false src dst E w :
  is_file (fs w) src = false →
  resize_image src dst E w
  = (Ok false, World (fs w) (trace w ++ [PrintFileNotExist src])).
Proof. apply resize_image_not_file. Qed.

(** C3. [resize_image] never raises.  An exception raised by the body of
    its [try] statement is caught, printed, and turned into [False]; this
    is what happens to a file that decodes to no data.  In a batch every
    task leaves a result, failed or not, and the collection loop counts
    all of them. *)
Theorem failures_are_caught_and_counted src dst E w :
  (∃ b w', resize_image src dst E w = (Ok b, w'))
  ∧ (∀ ex w',
       is_file (fs w) src = true →
       resize_image_try src dst E w = (Raise ex, w') →
       resize_image src dst E w
       = (Ok false, World (fs w') (trace w' ++ [PrintResizeFailed src ex])))
  ∧ (∀ data,
       fs w !! src = Some (File data) →
       imdecode data = None →
       resize_image src dst E w
       = (Ok false,
          World (fs w)
            (trace w ++ [CallImread src; PrintResizeFailed src AttributeError])))
  ∧ (∀ tasks total,
       ∃ bs w1 w2,
         run_tasks tasks E w = (Ok (Ok <$> bs), w1)
         ∧ length bs = length tasks
         ∧ collect total (Ok <$> bs) 0 0 w1 = (Ok (count_ok bs, count_fail bs), w2)
         ∧ count_ok bs + count_fail bs = Z.of_nat (length tasks)).
Proof.
  split; [apply resize_image_total|].
  split; [intros; by apply resize_image_caught|].
  split; [intros; by eapply resize_image_no_data|].
  intros tasks total.
  destruct (run_tasks_spec tasks E w) as (bs & w1 & evs & Hrun & _ & _ & Hall).
  apply Forall2_length in Hall.
  exists bs, w1, (World (fs w1) (trace w1 ++ progress_events total bs 0 0)).
  split; [done|]. split; [done|]. split.
  - by rewrite collect_spec.
  - rewrite count_ok_fail. lia.
Qed.

(** *** The claims about [resize_image_dir] *)

(** C4. [resize_image_dir] returns [False] when the source directory does
    not exist.  When it exists and the destination directory is there or
    can be made, it returns [True], whatever the tasks return.  So a
    returned value tells whether the source directory existed. *)
Theorem returns_true_unless_source_missing choices src dst E w :
  (is_dir (fs w) src = false →
   resize_image_dir choices src dst E w
   = (Ok false, World (fs w) (trace w ++ [PrintDirNotExist src])))
  ∧ (is_dir (fs w) src = true → creatable (fs w) dst →
     ∃ w', resize_image_dir choices src dst E w = (Ok true, w'))
  ∧ (∀ b w', resize_image_dir choices src dst E w = (Ok b, w') →
             b = is_dir (fs w) src).
Proof.
  assert (is_dir (fs w) src = true → creatable (fs w) dst →
          ∃ w', resize_image_dir choices src dst E w = (Ok true, w')) as Hrun.
  { intros Hsrc Hdst.
    destruct (resize_image_dir_run choices src dst E w Hsrc Hdst)
      as (bs & w1 & evs & _ & _ & _ & _ & ->).
    destruct (work_items _ _ _ _); eauto. }
  split; [apply resize_image_dir_no_source|]. split; [done|].
  intros b w' Hres. destruct (is_dir (fs w) src) eqn:Hsrc.
  - destruct (creatable_dec (fs w) dst) as [Hdst|Hdst].
    + destruct (Hrun eq_refl Hdst) as [w'' Heq]. congruence.
    + destruct (resize_image_dir_no_destination choices src dst E w Hsrc Hdst)
        as [ex Heq]. congruence.
  - rewrite resize_image_dir_no_source in Hres by done. congruence.
Qed.

(** C5. In the collection loop each completed task adds one to exactly
    one of [ok_cnt] and [fail_cnt], so that after [j] tasks the two add up
    to [j].  With [N] work items of which [k] return [False], the summary
    line reports [N - k] successes and [k] failures. *)
Theorem counters_add_up choices src dst E w :
  is_dir (fs w) src = true →
  creatable (fs w) dst →
  let m0 := prepared (fs w) dst in
  let items := work_items m0 src dst (entries m0 src) in
  let N := Z.of_nat (length items) in
  items ≠ [] →
  ∃ (bs : list bool) w1,
    run_tasks (completion_order choices (length items) items) E
      (World m0 (trace w ++ [PrintTotal N])) = (Ok (Ok <$> bs), w1)
    ∧ length bs = length items
    ∧ (∀ j, (j ≤ length bs)%nat →
         ∃ ok_cnt fail_cnt wj,
           collect N (Ok <$> take j bs) 0 0 w1 = (Ok (ok_cnt, fail_cnt), wj)
           ∧ ok_cnt + fail_cnt = Z.of_nat j
           ∧ ∀ b : bool, bs !! j = Some b →
               ∃ wj', collect N (Ok <$> take (S j) bs) 0 0 w1
                      = (Ok (if b then ok_cnt + 1 else ok_cnt,
                             if b then fail_cnt else fail_cnt + 1), wj'))
    ∧ ∃ w2 evs,
        resize_image_dir choices src dst E w = (Ok true, w2)
        ∧ trace w2 = evs ++ [PrintFinished (N - count_fail bs) (count_fail bs)]
        ∧ count_ok bs = N - count_fail bs.
Proof.
  intros Hsrc Hdst m0 items N Hne.
  destruct (resize_image_dir_run choices src dst E w Hsrc Hdst)
    as (bs & w1 & evs & Hrun & Ht & _ & Hall & Hres).
  fold m0 items N in Hrun, Hall, Hres.
  assert (length bs = length items) as Hlen.
  { apply Forall2_length in Hall.
    rewrite <- Hall. apply Permutation_length, completion_order_perm. }
  pose proof (count_ok_fail bs) as Hsum.
  exists bs, w1. split; [done|]. split; [done|]. split.
  - intros j Hj. eexists _, _, _. rewrite collect_spec. split; [reflexivity|].
    split.
    + rewrite !Z.add_0_l, count_ok_fail, length_take. lia.
    + intros b Hb. eexists. rewrite collect_spec.
      rewrite (take_S_r _ _ _ Hb).
      assert (count_ok (take j bs ++ [b]) = count_ok (take j bs) + if b then 1 else 0)
        as ->.
      { unfold count_ok. rewrite List.filter_app, length_app. destruct b; simpl; lia. }
      assert (count_fail (take j bs ++ [b])
              = count_fail (take j bs) + if b then 0 else 1) as ->.
      { unfold count_fail. rewrite List.filter_app, length_app. destruct b; simpl; lia. }
      destruct b; rewrite ?Z.add_0_r; reflexivity.
  - destruct items as [|it items'] eqn:Hitems; [done|].
    eexists _, (trace w1 ++ progress_events N bs 0 0). rewrite Hres.
    split; [reflexivity|]. simpl. rewrite <- app_assoc.
    split; [|lia]. repeat f_equal. lia.
Qed.

(** *** Extensions *)

Lemma rfind_from_absent c s i : has_char c s = false → rfind_from c s i = -1.
Proof.
  revert i. induction s as [|a s IH]; intros i H; simpl in *; [done|].
  apply orb_false_iff in H as [Ha Hs]. by rewrite IH, Ha.
Qed.

Lemma rfind_from_last c a b i :
  0 ≤ i → has_char c b = false →
  rfind_from c (a +:+ String c b) i = i + Z.of_nat (String.length a).
Proof.
  revert i. induction a as [|x a IH]; intros i Hi Hb.
  - rewrite append_empty_l. simpl. rewrite rfind_from_absent by done.
    rewrite Ascii.eqb_refl. simpl. lia.
  - rewrite append_cons. cbn [rfind_from String.length]. rewrite IH by (done || lia).
    destruct (Z.eqb_spec (i + 1 + Z.of_nat (String.length a)) (-1)); lia.
Qed.

Lemma substring_all s : substring 0 (String.length s) s = s.
Proof. induction s; simpl; congruence. Qed.

Lemma str_drop_app a s : str_drop (Z.of_nat (String.length a)) (a +:+ s) = s.
Proof.
  unfold str_drop. rewrite Nat2Z.id.
  induction a as [|x a IH].
  - rewrite append_empty_l. simpl. rewrite Nat.sub_0_r. apply substring_all.
  - rewrite append_cons. simpl. apply IH.
Qed.

(** The extension of a name that ends in a dot and a dot-free suffix is
    that suffix, or nothing. *)
Lemma splitext_suffix base e :
  has_char "." e = false →
  (splitext (base +:+ String "." e)).2 = ""
  ∨ (splitext (base +:+ String "." e)).2 = String "." e.
Proof.
  intros He. unfold splitext, rfind.
  rewrite (rfind_from_last "." base e 0) by (done || lia).
  rewrite Z.add_0_l.
  destruct (_ && _); simpl; [right|by left].
  apply str_drop_app.
Qed.

Lemma not_image_suffix base e :
  has_char "." e = false →
  String "." e ∉ image_ext_set →
  is_image_name (base +:+ String "." e) = false.
Proof.
  intros He Hnin. unfold is_image_name. apply bool_decide_eq_false_2.
  destruct (splitext_suffix base e He) as [-> | ->]; [|done].
  rewrite in_image_ext_set. by intros [|[|]].
Qed.

(** C7. An entry of the listing becomes a work item only if the extension
    that [splitext] gives it is, letter for letter, one of [.jpg], [.png]
    and [.jpeg], and it does so whenever no file stands at its
    destination.  Names that end in [.txt], or in an upper-case variant of
    an image extension, never pass the filter. *)
Theorem only_image_extensions_enumerated src dst names w :
  ∃ items,
    scan src dst names [] w = (Ok items, w)
    ∧ (∀ s d, (s, d) ∈ items →
         ∃ n, n ∈ names ∧ s = join src n ∧ d = join dst n
              ∧ ((splitext n).2 = ".jpg" ∨ (splitext n).2 = ".png"
                 ∨ (splitext n).2 = ".jpeg"))
    ∧ (∀ n, n ∈ names →
         (splitext n).2 = ".jpg" ∨ (splitext n).2 = ".png" ∨ (splitext n).2 = ".jpeg" →
         is_file (fs w) (join dst n) = false →
         (join src n, join dst n) ∈ items)
    ∧ (∀ n, is_image_name n = true
            ↔ (splitext n).2 = ".jpg" ∨ (splitext n).2 = ".png"
              ∨ (splitext n).2 = ".jpeg")
    ∧ (∀ base, is_image_name (base +:+ ".txt") = false
               ∧ is_image_name (base +:+ ".JPG") = false
               ∧ is_image_name (base +:+ ".PNG") = false
               ∧ is_image_name (base +:+ ".JPEG") = false
               ∧ is_image_name (base +:+ ".Jpg") = false).
Proof.
  assert (∀ n, is_image_name n = true
               ↔ (splitext n).2 = ".jpg" ∨ (splitext n).2 = ".png"
                 ∨ (splitext n).2 = ".jpeg") as Hext.
  { intros n. unfold is_image_name.
    by rewrite bool_decide_eq_true, in_image_ext_set. }
  exists (work_items (fs w) src dst names).
  split; [apply (scan_spec src dst names [] w)|].
  split; [|split; [|split; [done|]]].
  - intros s d (n & Hin & Hp & -> & ->)%work_items_elem.
    exists n. repeat (split; [done|]).
    apply Hext. unfold pending in Hp. by apply andb_true_iff in Hp as [? _].
  - intros n Hin Hn Hf. apply work_items_elem. exists n.
    repeat (split; [done|]). unfold pending.
    rewrite (proj2 (Hext n) Hn), Hf. by repeat split.
  - intros base.
    repeat split; apply not_image_suffix; try done;
      rewrite in_image_ext_set; by intros [|[|]].
Qed.

(** *** The prepared destination *)

Lemma prepared_dir m dst p : m !! p = Some Dir → prepared m dst !! p = Some Dir.
Proof.
  intros H. unfold prepared. destruct (is_dir m dst); [done|].
  destruct (decide (dst = p)) as [->|?];
    [by rewrite lookup_insert_eq|by rewrite lookup_insert_ne].
Qed.

Lemma prepared_dst m dst : prepared m dst !! dst = Some Dir.
Proof.
  unfold prepared, is_dir.
  destruct (m !! dst) as [[]|] eqn:E; by rewrite ?lookup_insert_eq.
Qed.

Lemma prepared_is_file m dst p :
  creatable m dst → is_file (prepared m dst) p = is_file m p.
Proof.
  intros Hc. unfold prepared. destruct (is_dir m dst) eqn:Hd; [done|].
  destruct Hc as [?|[_ Hnone]]; [congruence|].
  unfold is_file. destruct (decide (dst = p)) as [->|?].
  - by rewrite lookup_insert_eq, Hnone.
  - by rewrite lookup_insert_ne.
Qed.

Lemma prepared_id m dst : is_dir m dst = true → prepared m dst = m.
Proof. intros H. unfold prepared. by rewrite H. Qed.

Lemma count_fail_pos bs : false ∈ bs → 1 ≤ count_fail bs.
Proof.
  unfold count_fail. induction bs as [|b bs IH]; [by intros ?%elem_of_nil|].
  intros [Hb|Hin]%elem_of_cons.
  - subst b. simpl. lia.
  - specialize (IH Hin). destruct b; simpl in *; lia.
Qed.

Lemma filter_none {A} (f : A → bool) l :
  (∀ x, x ∈ l → f x = false) → List.filter f l = [].
Proof.
  induction l as [|x l IH]; intros H; [done|]. simpl.
  rewrite (H x) by (by left). apply IH. intros y Hy. apply H. by right.
Qed.

(** C10, as the code has it.  The scan does not ask whether an entry is
    a regular file.  A subdirectory of the source directory to which
    [splitext] gives an image extension, with no file at its destination,
    is listed and becomes a work item; its task stops at the is-file test
    of [resize_image] and returns [False], and the summary counts it among
    the failures. *)
Theorem directory_entry_is_a_counted_failure choices src dst n E w :
  is_dir (fs w) src = true →
  creatable (fs w) dst →
  valid_name n →
  fs w !! join src n = Some Dir →
  is_image_name n = true →
  is_file (fs w) (join dst n) = false →
  let m0 := prepared (fs w) dst in
  n ∈ entries m0 src
  ∧ (join src n, join dst n) ∈ work_items m0 src dst (entries m0 src)
  ∧ (∀ w', fs w' !! join src n = Some Dir →
       resize_image (join src n) (join dst n) E w'
       = (Ok false, World (fs w') (trace w' ++ [PrintFileNotExist (join src n)])))
  ∧ ∃ w2 evs ok_cnt fail_cnt,
      resize_image_dir choices src dst E w = (Ok true, w2)
      ∧ trace w2 = evs ++ [PrintFinished ok_cnt fail_cnt]
      ∧ 1 ≤ fail_cnt.
Proof.
  intros Hsrc Hdst Hn Hdir Himg Hfile m0.
  assert (m0 !! join src n = Some Dir) as Hdir0 by by apply prepared_dir.
  assert (n ∈ entries m0 src) as Hentry.
  { apply entries_spec. split; [done|].
    rewrite <- join_dir by by apply valid_name_not_absolute. by rewrite Hdir0. }
  assert ((join src n, join dst n) ∈ work_items m0 src dst (entries m0 src)) as Hitem.
  { apply work_items_elem. exists n. repeat (split; [done|]).
    unfold pending. subst m0. by rewrite Himg, prepared_is_file, Hfile. }
  split; [done|]. split; [done|]. split.
  { intros w' Hw'. apply resize_image_not_file. unfold is_file. by rewrite Hw'. }
  destruct (resize_image_dir_run choices src dst E w Hsrc Hdst)
    as (bs & w1 & evs & _ & _ & _ & Hall & Hres).
  fold m0 in Hall, Hres.
  set (items := work_items m0 src dst (entries m0 src)) in *.
  assert (false ∈ bs) as Hfalse.
  { rewrite <- (completion_order_perm choices items) in Hitem.
    apply list_elem_of_lookup in Hitem as [i Hi].
    destruct (Forall2_lookup_l _ _ _ _ _ Hall Hi) as (b & Hb & Hd & _).
    rewrite (Hd Hdir0) in Hb. by apply list_elem_of_lookup_2 in Hb. }
  destruct items as [|it items'] eqn:Hitems; [by apply elem_of_nil in Hitem|].
  eexists _, _, _, _. split; [exact Hres|]. simpl.
  split; [by rewrite app_assoc|]. by apply count_fail_pos.
Qed.

(** C6. A name whose destination path holds a file is left out of the
    work items.  So after a first run that returned [True] and left a file
    at the destination of each of its work items, a second run on the same
    directories finds no work item: it prints that there is nothing to
    resize and returns [True], with no call into OpenCV and the file
    system as the first run left it. *)
Theorem second_run_has_nothing_to_do choices choices' src dst E w w1 :
  resize_image_dir choices src dst E w = (Ok true, w1) →
  (let m0 := prepared (fs w) dst in
   forallb (fun t => is_file (fs w1) t.2) (work_items m0 src dst (entries m0 src))
   = true) →
  (∀ names n, is_file (fs w) (join dst n) = true →
     ∃ items, scan src dst names [] w = (Ok items, w)
              ∧ ∀ s, (s, join dst n) ∉ items)
  ∧ work_items (fs w1) src dst (entries (fs w1) src) = []
  ∧ resize_image_dir choices' src dst E w1
    = (Ok true, World (fs w1) (trace w1 ++ [PrintNoImage])).
Proof.
  intros Hrun1 Hdone. split.
  { intros names n Hf. eexists. split; [apply (scan_spec src dst names [] w)|].
    intros s (n' & _ & Hp & _ & Heq)%work_items_elem.
    unfold pending in Hp. rewrite <- Heq, Hf in Hp.
    by rewrite andb_false_r in Hp. }
  assert (is_dir (fs w) src = true) as Hsrc.
  { destruct (is_dir (fs w) src) eqn:Hsrc; [done|].
    rewrite resize_image_dir_no_source in Hrun1 by done. congruence. }
  assert (creatable (fs w) dst) as Hdst.
  { destruct (creatable_dec (fs w) dst) as [?|Hno]; [done|].
    destruct (resize_image_dir_no_destination choices src dst E w Hsrc Hno)
      as [ex Heq]. congruence. }
  destruct (resize_image_dir_run choices src dst E w Hsrc Hdst)
    as (bs & w0 & evs & _ & _ & Hev & _ & Hres).
  cbv zeta in Hdone.
  set (m0 := prepared (fs w) dst) in *.
  set (items := work_items m0 src dst (entries m0 src)) in *.
  assert (evolves m0 (fs w1) items.*2) as (Hdirs & Hfiles & Hnew).
  { rewrite Hrun1 in Hres. destruct items as [|it items'] eqn:Hitems.
    - injection Hres as ->. apply evolves_refl.
    - injection Hres as ->. cbn [fs]. rewrite <- Hitems in Hev |- *.
      destruct Hev as (? & ? & Hn). split; [done|]. split; [done|].
      intros p Hp. destruct (Hn p Hp) as [?|[Hin ?]]; [by left|right].
      split; [|done].
      by rewrite (completion_order_perm choices items) in Hin. }
  assert (is_dir (fs w1) src = true) as Hsrc1.
  { unfold is_dir in *. destruct (fs w !! src) as [[]|] eqn:Hl; try done.
    by rewrite (proj1 (Hdirs src) (prepared_dir _ dst _ Hl)). }
  assert (is_dir (fs w1) dst = true) as Hdst1.
  { unfold is_dir. by rewrite (proj1 (Hdirs dst) (prepared_dst _ _)). }
  assert (work_items (fs w1) src dst (entries (fs w1) src) = []) as Hnone.
  { unfold work_items. rewrite filter_none; [done|].
    intros n [Hvalid Hsome]%entries_spec. unfold pending.
    destruct (is_image_name n) eqn:Himg; [simpl|done].
    apply negb_false_iff.
    pose proof (valid_name_not_absolute n Hvalid) as Hrel.
    destruct (Hnew _ Hsome) as [Hold|[Hin Hf]].
    - destruct (pending m0 dst n) eqn:Hp.
      + rewrite forallb_forall in Hdone.
        apply (Hdone (join src n, join dst n)).
        apply list_elem_of_In, work_items_elem. exists n.
        split; [by apply entries_spec|done].
      + unfold pending in Hp. rewrite Himg in Hp. simpl in Hp.
        apply negb_false_iff in Hp. by apply Hfiles.
    - apply list_elem_of_fmap in Hin as ([s d] & Hd & Hin). simpl in Hd.
      apply work_items_elem in Hin as (n' & [Hvalid' _]%entries_spec & _ & _ & Hd').
      rewrite Hd', (join_dir dst n') in Hd by by apply valid_name_not_absolute.
      destruct (split_name (join src "") (join dst "") n n') as [Heq _];
        [apply slashed_join|apply slashed_join|apply Hvalid|apply Hvalid'|done|].
      rewrite join_dir, <- Heq by done. exact Hf. }
  split; [done|].
  destruct (resize_image_dir_run choices' src dst E w1 Hsrc1 (or_introl Hdst1))
    as (? & ? & ? & _ & _ & _ & _ & ->).
  rewrite prepared_id by done. by rewrite Hnone.
Qed.

Lemma count_fail_zero bs : count_fail bs = 0 → Forall (eq true) bs.
Proof.
  unfold count_fail. induction bs as [|[] bs IH]; simpl; intros H.
  - constructor.
  - constructor; [done|]. by apply IH.
  - lia.
Qed.

(** When the summary reports no failure and no work item's destination
    path is a directory, every work item's file has been written.  The
    second condition matters: [cv2.imwrite] returns [False] without
    raising when it cannot write, and [resize_image] does not look at what
    it returns. *)
Lemma no_failure_outputs_written choices src dst E w w1 evs ok_cnt :
  is_dir (fs w) src = true →
  creatable (fs w) dst →
  let m0 := prepared (fs w) dst in
  let items := work_items m0 src dst (entries m0 src) in
  (∀ t, t ∈ items → m0 !! t.2 ≠ Some Dir) →
  resize_image_dir choices src dst E w = (Ok true, w1) →
  trace w1 = evs ++ [PrintFinished ok_cnt 0] →
  forallb (fun t => is_file (fs w1) t.2) items = true.
Proof.
  intros Hsrc Hdst m0 items Hnodir Hrun Htrace.
  destruct (resize_image_dir_run choices src dst E w Hsrc Hdst)
    as (bs & w0 & evs0 & _ & _ & _ & Hall & Hres).
  fold m0 items in Hall, Hres. rewrite Hrun in Hres.
  apply forallb_forall. intros t Ht%list_elem_of_In.
  destruct items as [|it items'] eqn:Hitems; [by apply elem_of_nil in Ht|].
  rewrite <- Hitems in *. injection Hres as ->. cbn [fs trace] in *.
  rewrite !app_assoc in Htrace. apply app_inj_tail in Htrace as [_ Hfin].
  injection Hfin as _ Hzero.
  pose proof (count_fail_zero bs Hzero) as Htrue.
  rewrite <- (completion_order_perm choices items) in Ht.
  apply list_elem_of_lookup in Ht as [i Hi].
  destruct (Forall2_lookup_l _ _ _ _ _ Hall Hi) as (b & Hb & _ & Hw).
  apply Hw.
  - rewrite Forall_forall in Htrue. symmetry. apply Htrue.
    by apply list_elem_of_lookup_2 in Hb.
  - apply Hnodir. rewrite <- (completion_order_perm choices items).
    by apply list_elem_of_lookup_2 in Hi.
Qed.

(** *** The command line *)

Lemma main_usage choices file argv w :
  (length argv < 3)%nat →
  main choices file argv w
  = (Ok (),
     World (fs w)
       (trace w ++ [PrintUsage;
                    PrintExample (realpath (join (dirname file) "small_image"))])).
Proof.
  intros H. unfold main. apply Nat.ltb_lt in H. rewrite H.
  munfold. simpl. by rewrite <- app_assoc.
Qed.

Lemma main_runs choices file prog src_dir dst_dir larger_edge rest n w :
  int_of_string larger_edge = Ok n →
  main choices file (prog :: src_dir :: dst_dir :: larger_edge :: rest) w
  = (resize_image_dir choices src_dir dst_dir n;; mret ()) w.
Proof. intros H. unfold main. simpl. munfold. by rewrite H. Qed.

(** C9, as the code has it.  The test of line 120 counts the program name:
    with exactly two arguments after it the usage branch is not taken, the
    slice [sys.argv[1:4]] has two elements, and unpacking it into three
    names raises [ValueError].  Nothing is printed. *)
Theorem two_arguments_raise choices file prog src_dir dst_dir w :
  main choices file [prog; src_dir; dst_dir] w = (Raise ValueError, w).
Proof. reflexivity. Qed.

(** *** What a task writes *)

(** Closes a goal [e ∉ l] for a list [l] of events other than [e]. *)
Ltac no_such_event :=
  let H := fresh in
  intros H; repeat (apply elem_of_cons in H as [H|H]; [discriminate|]);
  by apply elem_of_nil in H.


(** A decoded image whose scaled size [cv2.resize] refuses. *)
Lemma resize_image_refused src dst E w data i new_w new_h :
  fs w !! src = Some (File data) →
  imdecode data = Some i →
  scale (cols i) (rows i) E = Ok (new_w, new_h) →
  (0 <? new_w) && (new_w <=? INT_MAX) && (0 <? new_h) && (new_h <=? INT_MAX) = false →
  resize_image src dst E w
  = (Ok false,
     World (fs w)
       (trace w ++ [CallImread src; CallResize new_w new_h;
                    PrintResizeFailed src CvError])).
Proof.
  intros Hs Hd Hscale Hbad.
  unfold resize_image, resize_image_try, isfile, is_file, imread, shape, resize.
  munfold. simpl.
  repeat (progress (rewrite ?Hs, ?Hd, ?Hscale; simpl)).
  rewrite Hbad. simpl. by rewrite <- !app_assoc.
Qed.


(** X2. An image so elongated that [larger_edge * min(w, h) < max(w, h)]
    scales to a size with a zero edge: [cv2.resize] refuses it, the
    exception is caught, and [resize_image] returns [False] without
    writing anything. *)
Theorem resize_image_rejects_elongated_image src dst E w data i :
  fs w !! src = Some (File data) →
  imdecode data = Some i →
  0 < cols i → 0 < rows i → 0 < E →
  E * Z.max (cols i) (rows i) ≤ max_area →
  E * Z.min (cols i) (rows i) < Z.max (cols i) (rows i) →
  ∃ new_w new_h,
    Z.min new_w new_h = 0
    ∧ Z.max new_w new_h = E
    ∧ resize_image src dst E w
      = (Ok false,
         World (fs w)
           (trace w ++ [CallImread src; CallResize new_w new_h;
                        PrintResizeFailed src CvError])).
Proof.
  intros Hs Hd Hw Hh HE Harea Hlong.
  pose proof (scaled_dims_bounds _ _ E Hw Hh HE Harea) as Hb.
  assert (scale (cols i) (rows i) E = Ok (scaled_dims (cols i) (rows i) E)) as Hscale.
  { unfold max_area in *. apply scale_spec; nia. }
  destruct (scaled_dims (cols i) (rows i) E) as [new_w new_h]. cbn [fst snd] in Hb.
  exists new_w, new_h.
  assert ((new_w = 0 ∧ new_h = E) ∨ (new_h = 0 ∧ new_w = E)) as Hzero.
  { destruct (Z.gtb_spec (cols i) (rows i)) as [Hgt|Hle]; destruct Hb as (-> & H0 & Hd');
      [right|left]; split; try done; nia. }
  split; [lia|]. split; [lia|].
  apply (resize_image_refused _ _ _ _ data i); try done.
  destruct Hzero as [[-> _]|[-> _]]; simpl; [done|].
  by rewrite andb_false_r.
Qed.

(** The scaling never changes the edge it sets to the target. *)
Lemma scale_target_edge w0 h0 E new_w new_h :
  scale w0 h0 E = Ok (new_w, new_h) → new_w = E ∨ new_h = E.
Proof.
  intros H%scale_Ok_inv. unfold scaled_dims in H.
  destruct (w0 >? h0); simplify_eq; auto.
Qed.

Lemma resize_image_scale_raises src dst E w data i ex :
  fs w !! src = Some (File data) →
  imdecode data = Some i →
  scale (cols i) (rows i) E = Raise ex →
  resize_image src dst E w
  = (Ok false,
     World (fs w) (trace w ++ [CallImread src; PrintResizeFailed src ex])).
Proof.
  intros Hs Hd Hscale.
  unfold resize_image, resize_image_try, isfile, is_file, imread, shape.
  munfold. simpl.
  repeat (progress (rewrite ?Hs, ?Hd, ?Hscale; simpl)).
  by rewrite <- !app_assoc.
Qed.

(** A target outside [1, INT_MAX]: every path through the task fails. *)
Lemma resize_image_bad_target src dst E w :
  E ≤ 0 ∨ INT_MAX < E →
  ∃ evs,
    resize_image src dst E w = (Ok false, World (fs w) (trace w ++ evs))
    ∧ ∀ p, CallImwrite p ∉ evs.
Proof.
  intros HE.
  destruct (is_file (fs w) src) eqn:Hf.
  2:{ rewrite resize_image_not_file by done. eexists. split; [done|].
      intros p. no_such_event. }
  unfold is_file in Hf. destruct (fs w !! src) as [[data|]|] eqn:Hs; try done.
  destruct (imdecode data) as [i|] eqn:Hd.
  2:{ rewrite (resize_image_no_data _ _ _ _ data) by done. eexists. split; [done|].
      intros p. no_such_event. }
  destruct (scale (cols i) (rows i) E) as [[new_w new_h]|ex] eqn:Hscale.
  - rewrite (resize_image_refused _ _ _ _ data i new_w new_h); try done.
    + eexists. split; [done|].
      intros p. no_such_event.
    + apply scale_target_edge in Hscale.
      destruct (Z.ltb_spec 0 new_w), (Z.leb_spec new_w INT_MAX),
        (Z.ltb_spec 0 new_h), (Z.leb_spec new_h INT_MAX); simpl; try done; lia.
  - rewrite (resize_image_scale_raises _ _ _ _ data i ex); try done.
    eexists. split; [done|].
    intros p. no_such_event.
Qed.

(** X3. A target that is not between 1 and [INT_MAX] never gives an
    output: whatever the source and the destination are,
    [resize_image] returns [False], leaves the file system as it is, and
    does not call [cv2.imwrite]. *)
Theorem resize_image_rejects_bad_target src dst E w :
  E ≤ 0 ∨ INT_MAX < E →
  ∃ evs,
    resize_image src dst E w = (Ok false, World (fs w) (trace w ++ evs))
    ∧ ∀ p, CallImwrite p ∉ evs.
Proof. apply resize_image_bad_target. Qed.


(** *** Work items *)

Lemma append_inv_head (a b c : string) : a +:+ b = a +:+ c → b = c.
Proof.
  induction a as [|x a IH]; [by rewrite !append_empty_l|].
  rewrite !append_cons. intros H. injection H as H. by apply IH.
Qed.

Lemma NoDup_omap_inj {A B} (f : A → option B) l :
  (∀ x y z, f x = Some z → f y = Some z → x = y) →
  NoDup l → NoDup (omap f l).
Proof.
  intros Hinj. induction 1 as [|x l Hx Hl IH]; simpl; [constructor|].
  destruct (f x) as [z|] eqn:Hz; [|done].
  constructor; [|done].
  rewrite list_elem_of_omap. intros (y & Hy & Hfy).
  by rewrite (Hinj x y z Hz Hfy) in Hx.
Qed.

(** A directory lists each of its entries once. *)
Lemma entries_NoDup (m : gmap string node) d : NoDup (entries m d).
Proof.
  unfold entries. apply NoDup_omap_inj; [|apply NoDup_fst_map_to_list].
  intros p q n Hp Hq. unfold entry_name in Hp, Hq.
  destruct (strip_prefix (join d "") p) as [np|] eqn:Hsp; [|done].
  destruct (strip_prefix (join d "") q) as [nq|] eqn:Hsq; [|done].
  destruct (_ || _) in Hp; [done|]. destruct (_ || _) in Hq; [done|].
  simplify_eq.
  apply strip_prefix_Some in Hsp, Hsq. congruence.
Qed.

Lemma join_inj_name d n n' :
  valid_name n → valid_name n' → join d n = join d n' → n = n'.
Proof.
  intros Hn Hn' H.
  rewrite (join_dir d n), (join_dir d n') in H by by apply valid_name_not_absolute.
  by apply append_inv_head in H.
Qed.

(** The work items of a scan are independent tasks. *)
Lemma work_items_independent (m : gmap string node) src dst :
  independent (work_items m src dst (entries m src)).
Proof.
  assert (∀ n, n ∈ List.filter (pending m dst) (entries m src) → valid_name n) as Hvalid.
  { intros n Hn. apply list_elem_of_In, filter_In in Hn as [Hn _].
    by apply list_elem_of_In, entries_spec in Hn as [? _]. }
  split.
  - unfold work_items. rewrite <- list_fmap_compose.
    apply NoDup_fmap_2_strong.
    + intros n n' Hn Hn' H. simpl in H. eapply join_inj_name; eauto.
    + apply NoDup_ListNoDup, List.NoDup_filter, NoDup_ListNoDup, entries_NoDup.
  - intros [s d] [s' d'] (n & Hn & Hp & -> & ->)%work_items_elem
      (n' & Hn' & Hp' & -> & ->)%work_items_elem Heq.
    simpl in Heq.
    apply entries_spec in Hn as [Hv _], Hn' as [Hv' _].
    rewrite (join_dir dst n), (join_dir src n') in Heq
      by by apply valid_name_not_absolute.
    destruct (split_name _ _ _ _ (slashed_join dst) (slashed_join src)
                (proj2 Hv) (proj2 Hv') Heq) as [Hpre ->].
    rewrite (join_dir dst n'), (join_dir src n'), Hpre
      by by apply valid_name_not_absolute.
    done.
Qed.

Lemma independent_perm ts ts' : ts ≡ₚ ts' → independent ts → independent ts'.
Proof.
  intros Hp [Hnd Hrw]. split.
  - by rewrite <- Hp.
  - intros t t' Ht Ht'. apply Hrw; by rewrite Hp.
Qed.

Lemma independent_cons t ts :
  independent (t :: ts) →
  independent ts ∧ (t.2 ∉ ts.*2) ∧ ∀ t', t' ∈ ts → t.2 ≠ t'.1 ∧ t.2 ≠ t'.2.
Proof.
  intros [Hnd Hrw]. rewrite fmap_cons in Hnd. apply NoDup_cons in Hnd as [Hnin Hnd].
  split; [|split; [done|]].
  - split; [done|]. intros t1 t2 H1 H2. apply Hrw; by right.
  - intros t' Ht'. split.
    + intros Heq. assert (t = t') as -> by (apply Hrw; [by left|by right|done]).
      apply Hnin. apply list_elem_of_fmap. by exists t'.
    + intros Heq. apply Hnin. rewrite Heq. apply list_elem_of_fmap. by exists t'.
Qed.

Lemma count_fail_perm bs bs' : bs ≡ₚ bs' → count_fail bs = count_fail bs'.
Proof.
  unfold count_fail. induction 1 as [|b ? ? ? IH|b b'|]; simpl; try done.
  - destruct b; simpl; lia.
  - destruct b, b'; simpl; lia.
  - lia.
Qed.

Lemma count_ok_perm bs bs' : bs ≡ₚ bs' → count_ok bs = count_ok bs'.
Proof.
  intros Hp. pose proof (count_fail_perm _ _ Hp) as Hf.
  apply Permutation_length in Hp.
  pose proof (count_ok_fail bs). pose proof (count_ok_fail bs'). lia.
Qed.

(** *** Tasks that run side by side *)

(** A task looks at its source and at its destination only: in two
    worlds that agree on both it returns the same, prints the same, and
    writes the same. *)
Lemma resize_image_local s d E w1 w2 :
  fs w1 !! s = fs w2 !! s → fs w1 !! d = fs w2 !! d →
  ∃ b evs m1 m2,
    resize_image s d E w1 = (Ok b, World m1 (trace w1 ++ evs))
    ∧ resize_image s d E w2 = (Ok b, World m2 (trace w2 ++ evs))
    ∧ ((m1 = fs w1 ∧ m2 = fs w2)
       ∨ (∃ data, b = true
            ∧ m1 = <[d := File data]> (fs w1) ∧ m2 = <[d := File data]> (fs w2))).
Proof.
  intros Hs Hd.
  unfold resize_image, resize_image_try, isfile, is_file, imread,
    shape, resize, imwrite, write_file.
  munfold. simpl.
  repeat first [progress (rewrite ?Hs, ?Hd; simpl) | case_match; simplify_eq/=];
    try congruence;
    (eexists _, _, _, _; split; [rewrite <- ?app_assoc; reflexivity|];
     split; [rewrite <- ?app_assoc; reflexivity|]);
    first [by left | right; eexists; by repeat split].
Qed.

(** The paths a task hands to OpenCV are its own. *)
Lemma resize_image_calls s d E w :
  ∃ b w' evs,
    resize_image s d E w = (Ok b, w')
    ∧ trace w' = trace w ++ evs
    ∧ (∀ p, CallImread p ∈ evs → p = s ∧ is_file (fs w) s = true)
    ∧ (∀ p, CallImwrite p ∈ evs → p = d).
Proof.
  unfold resize_image, resize_image_try, isfile, imread,
    shape, resize, imwrite, write_file.
  munfold. simpl.
  destruct (is_file (fs w) s) eqn:Hf; simpl.
  2:{ eexists _, _, _. split; [reflexivity|]. simpl. split; [reflexivity|].
      split; intros p; no_such_event. }
  repeat (case_match; simplify_eq/=);
    (eexists _, _, _; split; [reflexivity|]; simpl;
     split; [rewrite <- ?app_assoc; reflexivity|]);
    (split; intros p Hp;
     repeat (apply elem_of_cons in Hp as [Hp|Hp]; [by simplify_eq|]);
     by apply elem_of_nil in Hp).
Qed.

(** Independent tasks, in whatever order they run: each returns what it
    would return if it ran alone in the initial file system, and leaves
    at its destination what it would leave there. *)
Lemma run_tasks_pointwise tasks E w :
  independent tasks →
  ∃ bs w1 evs,
    run_tasks tasks E w = (Ok (Ok <$> bs), w1)
    ∧ trace w1 = trace w ++ evs
    ∧ (∀ p, p ∉ tasks.*2 → fs w1 !! p = fs w !! p)
    ∧ Forall2 (fun t b =>
                 ∃ m' evs',
                   resize_image t.1 t.2 E (World (fs w) []) = (Ok b, World m' evs')
                   ∧ fs w1 !! t.2 = m' !! t.2)
              tasks bs.
Proof.
  revert w. induction tasks as [|[s d] tasks IH]; intros w Hind.
  - exists [], w, []. simpl. rewrite app_nil_r. repeat split; auto.
  - apply independent_cons in Hind as (Hind & Hnin & Hne). simpl in Hnin, Hne.
    destruct (resize_image_local s d E w (World (fs w) []) eq_refl eq_refl)
      as (b & evs & m1 & m2 & Hr1 & Hr2 & Hm).
    assert (m2 = m1 ∧ ∀ p, p ≠ d → m1 !! p = fs w !! p) as [-> Hm1].
    { destruct Hm as [[-> ->]|(data & _ & -> & ->)]; [done|].
      split; [done|]. intros p Hp. by rewrite lookup_insert_ne. }
    destruct (IH (World m1 (trace w ++ evs)) Hind)
      as (bs & w1 & evs' & Hrun & Ht & Hframe & Hall).
    cbn [fs trace] in Ht, Hframe, Hall.
    exists (b :: bs), w1, (evs ++ evs').
    split. { cbn [run_tasks]. unfold run_task. munfold. by rewrite Hr1, Hrun. }
    split; [by rewrite Ht, app_assoc|].
    split.
    { intros p Hp. rewrite fmap_cons, not_elem_of_cons in Hp. destruct Hp as [Hpd Hp].
      rewrite Hframe by done. by apply Hm1. }
    constructor.
    + exists m1, ([] ++ evs). split; [done|]. simpl. by apply Hframe.
    + apply Forall2_same_length_lookup. split; [by eapply Forall2_length|].
      intros i [s' d'] b' Hi Hb'.
      destruct (Forall2_lookup_lr _ _ _ _ _ _ Hall Hi Hb') as (m' & ev0 & Hrun' & Hd').
      simpl in Hrun', Hd' |- *.
      apply list_elem_of_lookup_2 in Hi. destruct (Hne _ Hi) as [Hds Hdd]. simpl in *.
      destruct (resize_image_local s' d' E (World m1 []) (World (fs w) []))
        as (b0 & evs0 & ma & mb & Ha & Hb & Hcases); simpl.
      { apply Hm1. congruence. }
      { apply Hm1. congruence. }
      rewrite Hrun' in Ha. simplify_eq.
      eexists _, _. split; [exact Hb|]. rewrite Hd'.
      destruct Hcases as [[-> ->]|(data & _ & -> & ->)].
      * apply Hm1. congruence.
      * by rewrite !lookup_insert_eq.
Qed.

(** The paths a batch hands to OpenCV are those of its tasks. *)
Lemma run_tasks_calls tasks E w :
  ∃ bs w1 evs,
    run_tasks tasks E w = (Ok (Ok <$> bs), w1)
    ∧ trace w1 = trace w ++ evs
    ∧ (∀ p, CallImread p ∈ evs → p ∈ tasks.*1)
    ∧ (∀ p, CallImwrite p ∈ evs → p ∈ tasks.*2).
Proof.
  revert w. induction tasks as [|[s d] tasks IH]; intros w.
  - exists [], w, []. simpl. rewrite app_nil_r.
    repeat split; auto; intros p Hp; by apply elem_of_nil in Hp.
  - destruct (resize_image_calls s d E w) as (b & w0 & evs & Hr & Ht & Hrd & Hwr).
    destruct (IH w0) as (bs & w1 & evs' & Hrun & Ht' & Hrd' & Hwr').
    exists (b :: bs), w1, (evs ++ evs').
    split. { cbn [run_tasks]. unfold run_task. munfold. by rewrite Hr, Hrun. }
    split; [by rewrite Ht', Ht, app_assoc|].
    split; intros p [Hp|Hp]%elem_of_app; rewrite fmap_cons, elem_of_cons; simpl.
    + left. by apply Hrd.
    + right. by apply Hrd'.
    + left. by apply Hwr.
    + right. by apply Hwr'.
Qed.

(** *** The batch, whatever the schedule *)

Lemma Ok_fmap_inj {A} (l k : list A) :
  (Ok <$> l : list (result A)) = Ok <$> k → l = k.
Proof.
  revert k. induction l as [|x l IH]; intros [|y k] H; simplify_eq/=; [done|].
  f_equal. by apply IH.
Qed.

Lemma count_ok_filter {A} (f : A → bool) l :
  count_ok (f <$> l) = Z.of_nat (length (List.filter f l)).
Proof.
  unfold count_ok. induction l as [|x l IH]; [done|].
  rewrite fmap_cons. cbn [List.filter]. destruct (f x); simpl in *; lia.
Qed.


(** The collection loop prints progress lines only. *)
Lemma progress_events_only total bs ok_cnt fail_cnt e :
  e ∈ progress_events total bs ok_cnt fail_cnt →
  (∃ k t, e = PrintProgress k t) ∨ (∃ k, e = PrintFail k).
Proof.
  revert ok_cnt fail_cnt.
  induction bs as [|[] bs IH]; intros ok_cnt fail_cnt; cbn [progress_events].
  - by intros ?%elem_of_nil.
  - rewrite elem_of_app. intros [Hin|Hin]; [|by eapply IH].
    destruct (_ =? _); [|by apply elem_of_nil in Hin].
    apply list_elem_of_singleton in Hin. left. eauto.
  - rewrite elem_of_cons. intros [Hin|Hin]; [right; eauto|by eapply IH].
Qed.

(** A task alone, in the terms of [resize_image_effect]. *)
Lemma alone_spec m E t :
  ∃ evs,
    resize_image t.1 t.2 E (World m [])
    = (Ok (returns_alone m E t), World (leaves_alone m E t) evs)
    ∧ (returns_alone m E t = false → leaves_alone m E t = m)
    ∧ (m !! t.2 = Some Dir → leaves_alone m E t = m)
    ∧ (returns_alone m E t = true → m !! t.2 ≠ Some Dir →
       ∃ data, leaves_alone m E t = <[t.2 := File data]> m).
Proof.
  unfold returns_alone, leaves_alone.
  destruct (resize_image_effect t.1 t.2 E (World m []))
    as (b & w' & evs & Hr & Ht & Hf & Hs).
  rewrite Hr. cbn [fst snd fs trace] in *. exists evs.
  split; [destruct w'; simpl in *; by subst|].
  split; [done|]. split.
  - intros Hd. destruct b; [|by apply Hf].
    destruct Hs as [_ [[_ ?]|[? _]]]; done.
  - intros -> Hnd. destruct Hs as [_ [[? _]|[_ ?]]]; done.
Qed.

(** The run from an existing source directory, without the schedule:
    the file system it leaves and the counts it reports are those of the
    work items, each run on its own. *)
Lemma resize_image_dir_outcome choices src dst E w :
  is_dir (fs w) src = true →
  creatable (fs w) dst →
  let m0 := prepared (fs w) dst in
  let items := work_items m0 src dst (entries m0 src) in
  let bs := returns_alone m0 E <$> items in
  ∃ w' evs,
    resize_image_dir choices src dst E w = (Ok true, w')
    ∧ trace w' = trace w ++ evs
    ∧ (∀ p, p ∉ items.*2 → fs w' !! p = m0 !! p)
    ∧ (∀ t, t ∈ items → fs w' !! t.2 = leaves_alone m0 E t !! t.2)
    ∧ (items = [] → evs = [PrintNoImage])
    ∧ (items ≠ [] →
       ∃ evs0, evs = evs0 ++ [PrintFinished (count_ok bs) (count_fail bs)])
    ∧ (∀ p, CallImread p ∈ evs → p ∈ items.*1)
    ∧ (∀ p, CallImwrite p ∈ evs → p ∈ items.*2).
Proof.
  intros Hsrc Hdst m0 items bs.
  destruct (resize_image_dir_run choices src dst E w Hsrc Hdst)
    as (bs1 & w1 & evs1 & Hrun & Ht & _ & _ & Hres).
  fold m0 items in Hrun, Ht, Hres.
  set (order := completion_order choices (length items) items) in *.
  pose proof (completion_order_perm choices items) as Hperm. fold order in Hperm.
  assert (independent order) as Hind.
  { apply (independent_perm items); [done|]. apply work_items_independent. }
  assert (bs = returns_alone m0 E <$> items) as Hbs_def by done.
  clearbody bs order items.
  destruct (decide (items = [])) as [->|Hne].
  { eexists _, _. split; [exact Hres|]. simpl. split; [reflexivity|].
    split; [done|]. split; [by intros t ?%elem_of_nil|]. split; [done|].
    split; [done|]. split; intros p; no_such_event. }
  assert (resize_image_dir choices src dst E w
          = (Ok true,
             World (fs w1)
               (trace w1 ++ progress_events (Z.of_nat (length items)) bs1 0 0
                ++ [PrintFinished (count_ok bs1) (count_fail bs1)]))) as Hres'.
  { by destruct items. }
  clear Hres.
  set (W0 := World m0 (trace w ++ [PrintTotal (Z.of_nat (length items))])) in *.
  destruct (run_tasks_pointwise order E W0 Hind)
    as (bs2 & w2 & evs2 & Hrun2 & Ht2 & Hframe & Hall).
  destruct (run_tasks_calls order E W0)
    as (bs3 & w3 & evs3 & Hrun3 & Ht3 & Hrd & Hwr).
  rewrite Hrun in Hrun2, Hrun3.
  injection Hrun2 as Hb2 <-. injection Hrun3 as Hb3 <-.
  apply Ok_fmap_inj in Hb2, Hb3. subst bs2 bs3.
  rewrite Ht in Ht2, Ht3. apply app_inv_head in Ht2, Ht3. subst evs2 evs3.
  subst W0. cbn [fs trace] in Hframe, Hall.
  assert (bs1 = returns_alone m0 E <$> order
          ∧ ∀ t, t ∈ order → fs w1 !! t.2 = leaves_alone m0 E t !! t.2) as [Hbs Hleft].
  { clear -Hall. induction Hall as [|t b ts bs' (m' & evs' & Hr & Hl) _ [IH1 IH2]].
    - split; [done|]. by intros t ?%elem_of_nil.
    - assert (returns_alone m0 E t = b ∧ leaves_alone m0 E t = m') as [Hb Hm].
      { unfold returns_alone, leaves_alone. by rewrite Hr. }
      split; [by rewrite fmap_cons, Hb, IH1|].
      intros t' [->|Ht']%elem_of_cons; [by rewrite Hm|by apply IH2]. }
  assert (bs1 ≡ₚ bs) as Hbsp by (subst bs1 bs; by rewrite Hperm).
  eexists _, _. split; [exact Hres'|]. cbn [fs trace].
  split; [rewrite Ht, <- !app_assoc; reflexivity|].
  split. { intros p Hp. apply Hframe. by rewrite Hperm. }
  split. { intros t Htin. apply Hleft. by rewrite Hperm. }
  split; [done|].
  split.
  { intros _. eexists. rewrite (count_ok_perm _ _ Hbsp), (count_fail_perm _ _ Hbsp).
    rewrite !app_assoc. reflexivity. }
  split; intros p Hp.
  - rewrite <- Hperm. apply Hrd.
    apply elem_of_cons in Hp as [?|Hp]; [done|].
    rewrite !elem_of_app in Hp. destruct Hp as [Hp|[Hp|Hp]]; [done| |].
    + by apply progress_events_only in Hp as [(? & ? & ?)|[? ?]].
    + apply list_elem_of_singleton in Hp. done.
  - rewrite <- Hperm. apply Hwr.
    apply elem_of_cons in Hp as [?|Hp]; [done|].
    rewrite !elem_of_app in Hp. destruct Hp as [Hp|[Hp|Hp]]; [done| |].
    + by apply progress_events_only in Hp as [(? & ? & ?)|[? ?]].
    + apply list_elem_of_singleton in Hp. done.
Qed.

(** *** The batch and the file system *)


(** When [os.makedirs] raises, the exception is that of the destination
    path, whatever the schedule. *)
Lemma resize_image_dir_raises choices src dst E w :
  is_dir (fs w) src = true →
  ¬ creatable (fs w) dst →
  resize_image_dir choices src dst E w
  = (Raise (if String.eqb dst "" then FileNotFoundError else FileExistsError), w).
Proof.
  intros Hsrc Hdst. unfold resize_image_dir, isdir, makedirs. munfold. simpl.
  rewrite Hsrc. simpl.
  destruct (is_dir (fs w) dst) eqn:Hd; simpl.
  { destruct Hdst. by left. }
  destruct (String.eqb_spec dst "") as [->|Hne]; [done|].
  destruct (fs w !! dst) eqn:Hl; [done|].
  destruct Hdst. by right.
Qed.



(** What a work item leaves at its destination. *)
Lemma work_item_leaves m src dst E names t :
  t ∈ work_items m src dst names →
  leaves_alone m E t !! t.2 = m !! t.2
  ∨ (m !! t.2 = None ∧ returns_alone m E t = true
     ∧ ∃ data, leaves_alone m E t !! t.2 = Some (File data)).
Proof.
  destruct t as [s d]. intros (n & _ & Hp & -> & ->)%work_items_elem.
  unfold pending in Hp. apply andb_true_iff in Hp as [_ Hnf%negb_true_iff].
  cbn [fst snd].
  destruct (alone_spec m E (join src n, join dst n)) as (evs & _ & Hf & Hd & Hw).
  cbn [fst snd] in *.
  destruct (returns_alone m E (join src n, join dst n)) eqn:Hb.
  - destruct (m !! join dst n) as [[data|]|] eqn:Hl.
    + unfold is_file in Hnf. by rewrite Hl in Hnf.
    + left. by rewrite Hd.
    + right. destruct Hw as [data ->]; [done|done|].
      split; [done|]. split; [done|]. exists data. by rewrite lookup_insert_eq.
  - left. by rewrite Hf.
Qed.

(** The run from an existing source directory keeps what was there. *)
Lemma existing_files_kept_in_run choices src dst E w :
  is_dir (fs w) src = true →
  creatable (fs w) dst →
  let m0 := prepared (fs w) dst in
  ∃ w',
    resize_image_dir choices src dst E w = (Ok true, w')
    ∧ (∀ p x, m0 !! p = Some x → fs w' !! p = Some x)
    ∧ (∀ p, m0 !! p = None → is_Some (fs w' !! p) →
         ∃ n, n ∈ entries m0 src ∧ is_image_name n = true
              ∧ p = join dst n ∧ is_file (fs w') p = true).
Proof.
  intros Hsrc Hdst m0.
  destruct (resize_image_dir_outcome choices src dst E w Hsrc Hdst)
    as (w' & evs & Hrun & _ & Hframe & Hleft & _).
  fold m0 in Hframe, Hleft.
  set (items := work_items m0 src dst (entries m0 src)) in *.
  exists w'. split; [done|].
  assert (∀ p, fs w' !! p = m0 !! p
               ∨ (m0 !! p = None
                  ∧ (∃ n, n ∈ entries m0 src ∧ is_image_name n = true ∧ p = join dst n)
                  ∧ is_file (fs w') p = true)) as Hcases.
  { intros p. destruct (decide (p ∈ items.*2)) as [Hin|Hnin]; [|left; by apply Hframe].
    apply list_elem_of_fmap in Hin as (t & -> & Hin).
    rewrite (Hleft t Hin).
    destruct (work_item_leaves m0 src dst E _ t Hin) as [?|(Hnone & _ & data & Hd)];
      [by left|right].
    split; [done|]. split.
    - destruct t as [s d]. apply work_items_elem in Hin as (n & Hn & Hp & _ & ->).
      exists n. split; [done|]. split; [|done].
      unfold pending in Hp. by apply andb_true_iff in Hp as [? _].
    - unfold is_file. by rewrite (Hleft t Hin), Hd. }
  split.
  - intros p x Hp. destruct (Hcases p) as [->|[Hnone _]]; [done|]. congruence.
  - intros p Hp Hs. destruct (Hcases p) as [Heq|(_ & (n & ? & ? & ?) & ?)].
    + rewrite Heq, Hp in Hs. by destruct Hs.
    + by exists n.
Qed.


(** X7. After a run that returns [True] the destination directory
    exists, also when it had to be made and when nothing was resized; a
    run that returns [False] has made nothing. *)
Theorem destination_directory_after_run choices src dst E w b w' :
  resize_image_dir choices src dst E w = (Ok b, w') →
  b = is_dir (fs w) src
  ∧ (b = true → is_dir (fs w') dst = true)
  ∧ (b = false → fs w' = fs w).
Proof.
  intros Hrun. destruct (is_dir (fs w) src) eqn:Hsrc.
  2:{ rewrite resize_image_dir_no_source in Hrun by done. by simplify_eq. }
  destruct (creatable_dec (fs w) dst) as [Hdst|Hdst].
  2:{ rewrite resize_image_dir_raises in Hrun by done. done. }
  destruct (resize_image_dir_run choices src dst E w Hsrc Hdst)
    as (bs & w1 & evs & _ & _ & Hev & _ & Hres).
  rewrite Hrun in Hres.
  assert (b = true ∧ is_dir (fs w') dst = true) as [-> Hd]; [|done].
  pose proof (prepared_dst (fs w) dst) as Hp.
  destruct (work_items _ _ _ _); simplify_eq; cbn [fs].
  - unfold is_dir. by rewrite Hp.
  - destruct Hev as (Hdirs & _). unfold is_dir.
    by rewrite (proj1 (Hdirs dst) Hp).
Qed.

(** X8. When the destination path is taken by a regular file, or is the
    empty string, [os.makedirs] raises and [resize_image_dir] lets the
    exception through: it does not return, prints nothing, and leaves
    the file system as it is. *)
Theorem destination_not_a_directory_raises choices src dst E w :
  is_dir (fs w) src = true →
  (∀ data, fs w !! dst = Some (File data) → dst ≠ "" →
     resize_image_dir choices src dst E w = (Raise FileExistsError, w))
  ∧ (dst = "" → is_dir (fs w) dst = false →
     resize_image_dir choices src dst E w = (Raise FileNotFoundError, w)).
Proof.
  intros Hsrc. split.
  - intros data Hd Hne.
    rewrite resize_image_dir_raises; [|done|].
    + by destruct (String.eqb_spec dst "").
    + unfold creatable, is_dir. rewrite Hd. by intros [|[]].
  - intros -> Hd. rewrite resize_image_dir_raises; [done|done|].
    unfold creatable. rewrite Hd. by intros [|[]].
Qed.

(** X9. The schedule of the thread pool does not matter.  Two runs from
    the same world, with the tasks completing in any two orders, return
    the same, leave the same file system, and end with the same line:
    the same counts of successes and failures. *)
Theorem schedule_does_not_matter choices choices' src dst E w :
  ∃ r w1 w2,
    resize_image_dir choices src dst E w = (r, w1)
    ∧ resize_image_dir choices' src dst E w = (r, w2)
    ∧ fs w1 = fs w2
    ∧ last (trace w1) = last (trace w2).
Proof.
  destruct (is_dir (fs w) src) eqn:Hsrc.
  2:{ eexists _, _, _. split; [by apply resize_image_dir_no_source|].
      split; [by apply resize_image_dir_no_source|]. done. }
  destruct (creatable_dec (fs w) dst) as [Hdst|Hdst].
  2:{ eexists _, _, _. split; [by apply resize_image_dir_raises|].
      split; [by apply resize_image_dir_raises|]. done. }
  destruct (resize_image_dir_outcome choices src dst E w Hsrc Hdst)
    as (w1 & evs1 & Hrun1 & Ht1 & Hframe1 & Hleft1 & Hnil1 & Hfin1 & _).
  destruct (resize_image_dir_outcome choices' src dst E w Hsrc Hdst)
    as (w2 & evs2 & Hrun2 & Ht2 & Hframe2 & Hleft2 & Hnil2 & Hfin2 & _).
  set (m0 := prepared (fs w) dst) in *.
  set (items := work_items m0 src dst (entries m0 src)) in *.
  exists (Ok true), w1, w2. split; [done|]. split; [done|]. split.
  - apply map_eq. intros p.
    destruct (decide (p ∈ items.*2)) as [Hin|Hnin].
    + apply list_elem_of_fmap in Hin as (t & -> & Hin).
      by rewrite Hleft1, Hleft2.
    + by rewrite Hframe1, Hframe2.
  - rewrite Ht1, Ht2. destruct (decide (items = [])) as [Hnil|Hne].
    + by rewrite Hnil1, Hnil2.
    + destruct (Hfin1 Hne) as [evs01 ->]. destruct (Hfin2 Hne) as [evs02 ->].
      by rewrite !app_assoc, !last_snoc.
Qed.

(** Tasks whose sources are not regular files: each prints its
    diagnostic and fails, and the file system stays as it is. *)
Lemma run_tasks_not_files tasks E w :
  Forall (fun t => is_file (fs w) t.1 = false) tasks →
  run_tasks tasks E w
  = (Ok (Ok <$> ((fun _ => false) <$> tasks)),
     World (fs w) (trace w ++ (PrintFileNotExist <$> tasks.*1))).
Proof.
  revert w. induction tasks as [|[s d] tasks IH]; intros w Hall.
  - simpl. rewrite app_nil_r. by destruct w.
  - apply Forall_cons in Hall as [Hs Hall]. simpl in Hs.
    cbn [run_tasks]. unfold run_task. munfold.
    rewrite resize_image_not_file by done.
    rewrite IH by done. simpl. by rewrite <- app_assoc.
Qed.

(** X10. Resizing a directory into itself does nothing.  Every image
    file already stands at its own destination and is skipped; what is
    left are entries that are not regular files, and their tasks fail.
    No file is read or written, the file system stays as it is, and no
    success is reported. *)
Theorem in_place_run_writes_nothing choices d E w :
  is_dir (fs w) d = true →
  ∃ evs,
    resize_image_dir choices d d E w = (Ok true, World (fs w) (trace w ++ evs))
    ∧ (∀ p, CallImread p ∉ evs)
    ∧ (∀ p, CallImwrite p ∉ evs)
    ∧ (∀ ok_cnt fail_cnt, PrintFinished ok_cnt fail_cnt ∈ evs → ok_cnt = 0).
Proof.
  intros Hd.
  destruct (resize_image_dir_run choices d d E w Hd (or_introl Hd))
    as (bs & w1 & evs & Hrun & _ & _ & _ & Hres).
  rewrite (prepared_id _ _ Hd) in Hrun, Hres.
  set (items := work_items (fs w) d d (entries (fs w) d)) in *.
  set (order := completion_order choices (length items) items) in *.
  assert (Forall (fun t => is_file (fs w) t.1 = false) order) as Hnf.
  { apply Forall_forall. intros [s d'] Hin.
    unfold order in Hin. rewrite completion_order_perm in Hin.
    apply work_items_elem in Hin as (n & _ & Hp & -> & ->). simpl.
    unfold pending in Hp. by apply andb_true_iff in Hp as [_ ?%negb_true_iff]. }
  rewrite run_tasks_not_files in Hrun by done.
  injection Hrun as Hbs <-. apply Ok_fmap_inj in Hbs. subst bs.
  destruct items as [|it items'] eqn:Hitems.
  { eexists. split; [exact Hres|].
    split; [intros p; no_such_event|]. split; [intros p; no_such_event|].
    intros a b. no_such_event. }
  rewrite <- Hitems in *. cbn [fs trace] in Hres.
  eexists. split; [rewrite Hres, <- !app_assoc; reflexivity|].
  assert (count_ok ((fun _ : string * string => false) <$> order) = 0) as Hzero.
  { rewrite count_ok_filter. clear. by induction order. }
  rewrite Hzero.
  assert (∀ e, e ∈ [PrintTotal (Z.of_nat (length items))]
                   ++ (PrintFileNotExist <$> order.*1)
                   ++ progress_events (Z.of_nat (length items))
                        ((fun _ => false) <$> order) 0 0
                   ++ [PrintFinished 0 (count_fail ((fun _ => false) <$> order))] →
               (∃ n, e = PrintTotal n) ∨ (∃ p, e = PrintFileNotExist p)
               ∨ (∃ k t, e = PrintProgress k t) ∨ (∃ k, e = PrintFail k)
               ∨ (∃ k, e = PrintFinished 0 k)) as Hshape.
  { intros e. rewrite !elem_of_app, !list_elem_of_singleton.
    intros [-> | [Hin | [Hin | ->]]]; eauto 8.
    - apply list_elem_of_fmap in Hin as (p & -> & _). eauto.
    - apply progress_events_only in Hin as [?|?]; eauto 8. }
  split; [|split].
  - intros p Hin. apply Hshape in Hin.
    destruct Hin as [[? ?]|[[? ?]|[(? & ? & ?)|[[? ?]|[? ?]]]]]; by simplify_eq.
  - intros p Hin. apply Hshape in Hin.
    destruct Hin as [[? ?]|[[? ?]|[(? & ? & ?)|[[? ?]|[? ?]]]]]; by simplify_eq.
  - intros a b Hin. apply Hshape in Hin.
    destruct Hin as [[? ?]|[[? ?]|[(? & ? & ?)|[[? ?]|[? ?]]]]]; by simplify_eq.
Qed.

(** X11. With a target that is not between 1 and [INT_MAX] every task
    of the batch fails: the run still returns [True], it reports no
    success and as many failures as there are work items, and apart from
    the destination directory the file system stays as it is. *)
Theorem bad_target_fails_every_item choices src dst E w :
  is_dir (fs w) src = true →
  creatable (fs w) dst →
  E ≤ 0 ∨ INT_MAX < E →
  let m0 := prepared (fs w) dst in
  let items := work_items m0 src dst (entries m0 src) in
  items ≠ [] →
  ∃ evs,
    resize_image_dir choices src dst E w
    = (Ok true,
       World m0 (trace w ++ evs ++ [PrintFinished 0 (Z.of_nat (length items))])).
Proof.
  intros Hsrc Hdst HE m0 items Hne.
  destruct (resize_image_dir_outcome choices src dst E w Hsrc Hdst)
    as (w' & evs & Hrun & Ht & Hframe & Hleft & _ & Hfin & _).
  fold m0 items in Hframe, Hleft, Hfin.
  assert (∀ t, returns_alone m0 E t = false) as Hfalse.
  { intros t. unfold returns_alone.
    destruct (resize_image_bad_target t.1 t.2 E (World m0 []) HE) as (? & -> & _).
    done. }
  destruct (Hfin Hne) as [evs0 ->].
  assert (count_ok (returns_alone m0 E <$> items) = 0) as Hok.
  { rewrite count_ok_filter, (filter_none _ items); [done|]. intros; apply Hfalse. }
  pose proof (count_ok_fail (returns_alone m0 E <$> items)) as Hsum.
  rewrite Hok, length_fmap in Hsum.
  assert (count_fail (returns_alone m0 E <$> items) = Z.of_nat (length items)) as Hfail
    by lia.
  rewrite Hok, Hfail in Ht.
  assert (fs w' = m0) as Hfs.
  { apply map_eq. intros p. destruct (decide (p ∈ items.*2)) as [Hin|Hnin].
    - apply list_elem_of_fmap in Hin as (t & -> & Hin). rewrite Hleft by done.
      destruct (alone_spec m0 E t) as (_ & _ & Hf & _). by rewrite Hf.
    - by apply Hframe. }
  exists evs0. rewrite Hrun. f_equal. destruct w'; simpl in *. by subst.
Qed.

(** X12. OpenCV is handed the paths of work items only.  Every file that
    [cv2.imread] is asked to read is a listed entry of the source
    directory with an image extension and no file at its destination,
    and every path [cv2.imwrite] is asked to write is the destination of
    such an entry. *)
Theorem opencv_sees_work_items_only choices src dst E w :
  ∃ r w' evs,
    resize_image_dir choices src dst E w = (r, w')
    ∧ trace w' = trace w ++ evs
    ∧ (∀ p, CallImread p ∈ evs →
         ∃ n, n ∈ entries (prepared (fs w) dst) src
              ∧ is_image_name n = true
              ∧ is_file (fs w) (join dst n) = false
              ∧ p = join src n)
    ∧ (∀ p, CallImwrite p ∈ evs →
         ∃ n, n ∈ entries (prepared (fs w) dst) src
              ∧ is_image_name n = true
              ∧ is_file (fs w) (join dst n) = false
              ∧ p = join dst n).
Proof.
  destruct (is_dir (fs w) src) eqn:Hsrc.
  2:{ eexists _, _, _. split; [by apply resize_image_dir_no_source|]. simpl.
      split; [done|]. split; intros p; no_such_event. }
  destruct (creatable_dec (fs w) dst) as [Hdst|Hdst].
  2:{ exists (Raise (if String.eqb dst "" then FileNotFoundError else FileExistsError)),
        w, [].
      split; [by apply resize_image_dir_raises|]. rewrite app_nil_r.
      split; [done|]. split; intros p; no_such_event. }
  destruct (resize_image_dir_outcome choices src dst E w Hsrc Hdst)
    as (w' & evs & Hrun & Ht & _ & _ & _ & _ & Hrd & Hwr).
  set (m0 := prepared (fs w) dst) in *.
  assert (∀ s d, (s, d) ∈ work_items m0 src dst (entries m0 src) →
                 ∃ n, n ∈ entries m0 src ∧ is_image_name n = true
                      ∧ is_file (fs w) (join dst n) = false
                      ∧ s = join src n ∧ d = join dst n) as Hitem.
  { intros s d (n & Hn & Hp & -> & ->)%work_items_elem.
    unfold pending in Hp. apply andb_true_iff in Hp as [Himg Hnf%negb_true_iff].
    exists n. subst m0. rewrite prepared_is_file in Hnf by done. done. }
  exists (Ok true), w', evs. split; [done|]. split; [done|].
  split; intros p Hp.
  - apply Hrd, list_elem_of_fmap in Hp as ([s d] & -> & Hin).
    destruct (Hitem s d Hin) as (n & ? & ? & ? & ? & ?). by exists n.
  - apply Hwr, list_elem_of_fmap in Hp as ([s d] & -> & Hin).
    destruct (Hitem s d Hin) as (n & ? & ? & ? & ? & ?). by exists n.
Qed.


(** X14. A write that does not happen.  For a decoded image with a size
    that [cv2.resize] accepts: when the destination path is a directory,
    [cv2.imwrite] returns [False], which [resize_image] does not look
    at, so the task returns [True] with nothing written; when there is
    no encoder for the destination's extension, [cv2.imwrite] raises and
    the task returns [False], after the image was read and resampled. *)
Theorem resize_image_write_not_done src dst E w data i new_w new_h :
  fs w !! src = Some (File data) →
  imdecode data = Some i →
  scale (cols i) (rows i) E = Ok (new_w, new_h) →
  0 < new_w ≤ INT_MAX → 0 < new_h ≤ INT_MAX →
  (has_encoder (splitext dst).2 = true → fs w !! dst = Some Dir →
   resize_image src dst E w
   = (Ok true,
      World (fs w)
        (trace w ++ [CallImread src; CallResize new_w new_h; CallImwrite dst])))
  ∧ (has_encoder (splitext dst).2 = false →
     resize_image src dst E w
     = (Ok false,
        World (fs w)
          (trace w ++ [CallImread src; CallResize new_w new_h; CallImwrite dst;
                       PrintResizeFailed src CvError]))).
Proof.
  intros Hs Hd Hscale [Hw1 Hw2] [Hh1 Hh2].
  unfold resize_image, resize_image_try, isfile, is_file, imread, shape, resize,
    imwrite, write_file.
  munfold. simpl.
  repeat (progress (rewrite ?Hs, ?Hd, ?Hscale; simpl)).
  rewrite (proj2 (Z.ltb_lt 0 new_w) Hw1), (proj2 (Z.leb_le new_w INT_MAX) Hw2),
    (proj2 (Z.ltb_lt 0 new_h) Hh1), (proj2 (Z.leb_le new_h INT_MAX) Hh2).
  simpl. split.
  - intros -> Hdir. simpl. rewrite Hdir. simpl. by rewrite <- !app_assoc.
  - intros ->. simpl. by rewrite <- !app_assoc.
Qed.

(** X15. The next run retries what failed.  When the source and the
    destination are different directories, the work items of a run
    started after a first run are the work items of the first run that
    have no file at their destination. *)
Theorem next_run_retries_what_failed choices src dst E w :
  is_dir (fs w) src = true →
  creatable (fs w) dst →
  join src "" ≠ join dst "" →
  let m0 := prepared (fs w) dst in
  ∃ w',
    resize_image_dir choices src dst E w = (Ok true, w')
    ∧ ∀ t, t ∈ work_items (fs w') src dst (entries (fs w') src)
           ↔ t ∈ work_items m0 src dst (entries m0 src)
             ∧ is_file (fs w') t.2 = false.
Proof.
  intros Hsrc Hdst Hdiff m0.
  destruct (existing_files_kept_in_run choices src dst E w Hsrc Hdst)
    as (w' & Hrun & Hkept & Hnew).
  fold m0 in Hkept, Hnew.
  exists w'. split; [done|].
  assert (∀ n, valid_name n →
               is_Some (fs w' !! (join src "" +:+ n))
               ↔ is_Some (m0 !! (join src "" +:+ n))) as Hentries.
  { intros n Hn. split; intros [x Hx].
    - destruct (m0 !! (join src "" +:+ n)) eqn:Hm; [done|].
      destruct (Hnew _ Hm (mk_is_Some _ _ Hx)) as (n' & [Hn' _]%entries_spec & _ & Heq & _).
      rewrite (join_dir dst n') in Heq by by apply valid_name_not_absolute.
      destruct (split_name _ _ _ _ (slashed_join src) (slashed_join dst)
                  (proj2 Hn) (proj2 Hn') Heq) as [? _]. done.
    - apply Hkept in Hx. eauto. }
  intros [s d]. rewrite !work_items_elem. cbn [snd]. split.
  - intros (n & [Hn Hsome]%entries_spec & Hp & -> & ->).
    unfold pending in Hp. apply andb_true_iff in Hp as [Himg Hnf%negb_true_iff].
    split; [|done]. exists n. split; [apply entries_spec; by rewrite <- Hentries|].
    split; [|done]. unfold pending. rewrite Himg. simpl. apply negb_true_iff.
    destruct (is_file m0 (join dst n)) eqn:Hf; [|done].
    unfold is_file in Hf, Hnf.
    destruct (m0 !! join dst n) as [[data|]|] eqn:Hl; try done.
    by rewrite (Hkept _ _ Hl) in Hnf.
  - intros [(n & [Hn Hsome]%entries_spec & Hp & -> & ->) Hnf].
    exists n. split; [apply entries_spec; by rewrite Hentries|].
    split; [|done]. unfold pending in *.
    apply andb_true_iff in Hp as [-> _]. by rewrite Hnf.
Qed.

(** *** The command line, with its arguments *)

(** X16. With three arguments or more after the program name, the
    script takes the first three.  The third goes through [int] before
    anything else happens: when it is no integer the exception leaves
    the script with nothing printed and nothing changed.  What
    [resize_image_dir] returns is dropped: when the source directory is
    missing, the script prints the diagnostic and ends normally. *)
Theorem command_line_runs_the_batch
    choices file prog src_dir dst_dir larger_edge rest w :
  (∀ n r w',
     int_of_string larger_edge = Ok n →
     resize_image_dir choices src_dir dst_dir n w = (r, w') →
     main choices file (prog :: src_dir :: dst_dir :: larger_edge :: rest) w
     = (match r with Ok _ => Ok () | Raise ex => Raise ex end, w'))
  ∧ (∀ ex,
       int_of_string larger_edge = Raise ex →
       main choices file (prog :: src_dir :: dst_dir :: larger_edge :: rest) w
       = (Raise ex, w))
  ∧ (∀ n,
       int_of_string larger_edge = Ok n →
       is_dir (fs w) src_dir = false →
       main choices file (prog :: src_dir :: dst_dir :: larger_edge :: rest) w
       = (Ok (), World (fs w) (trace w ++ [PrintDirNotExist src_dir]))).
Proof.
  assert (∀ n r w',
     int_of_string larger_edge = Ok n →
     resize_image_dir choices src_dir dst_dir n w = (r, w') →
     main choices file (prog :: src_dir :: dst_dir :: larger_edge :: rest) w
     = (match r with Ok _ => Ok () | Raise ex => Raise ex end, w')) as Hruns.
  { intros n r w' Hn Hr. rewrite (main_runs _ _ _ _ _ _ _ n) by done.
    munfold. rewrite Hr. by destruct r. }
  split; [done|]. split.
  - intros ex Hex. unfold main. simpl. munfold. by rewrite Hex.
  - intros n Hn Hsrc.
    by rewrite (Hruns n _ _ Hn (resize_image_dir_no_source _ _ _ _ _ Hsrc)).
Qed.

(** X17. With no argument or one after the program name, the script
    prints the usage line and an example whose destination is the
    directory [small_image] beside the script, and ends normally with
    the file system as it was. *)
Theorem usage_for_at_most_one_argument choices file argv w :
  (length argv ≤ 2)%nat →
  main choices file argv w
  = (Ok (),
     World (fs w)
       (trace w ++ [PrintUsage;
                    PrintExample (realpath (join (dirname file) "small_image"))])).
Proof. intros H. apply main_usage. lia. Qed.

(** *** What the collection loop prints *)

Lemma progress_events_lines total bs ok_cnt fail_cnt :
  (∀ e, e ∈ progress_events total bs ok_cnt fail_cnt →
        (∃ k, e = PrintFail k) ∨ (∃ k, e = PrintProgress k total))
  ∧ (∀ k, PrintFail k ∈ progress_events total bs ok_cnt fail_cnt
          ↔ fail_cnt < k ≤ fail_cnt + count_fail bs)
  ∧ (∀ k, PrintProgress k total ∈ progress_events total bs ok_cnt fail_cnt
          ↔ ok_cnt < k ≤ ok_cnt + count_ok bs ∧ k mod 1000 = 0).
Proof.
  revert ok_cnt fail_cnt.
  induction bs as [|b bs IH]; intros ok_cnt fail_cnt.
  - cbn [progress_events]. unfold count_ok, count_fail. simpl.
    split; [by intros e ?%elem_of_nil|].
    split; intros k; (split; [by intros ?%elem_of_nil|lia]).
  - rewrite count_ok_cons, count_fail_cons. destruct b; cbn [progress_events].
    + destruct (IH (ok_cnt + 1) fail_cnt) as (IH1 & IH2 & IH3).
      split; [|split].
      * intros e [Hin|Hin]%elem_of_app; [|by apply IH1].
        destruct (_ =? _); [|by apply elem_of_nil in Hin].
        apply list_elem_of_singleton in Hin. right. eauto.
      * intros k. rewrite elem_of_app, IH2. split.
        -- intros [Hin|?]; [|lia].
           destruct (_ =? _); [|by apply elem_of_nil in Hin].
           by apply list_elem_of_singleton in Hin.
        -- intros ?. right. lia.
      * intros k. rewrite elem_of_app, IH3.
        destruct (Z.eqb_spec ((ok_cnt + 1) mod 1000) 0) as [Hmod|Hmod].
        -- rewrite list_elem_of_singleton. split.
           ++ intros [Heq|?]; [|lia]. simplify_eq. pose proof (count_ok_fail bs).
              unfold count_ok. lia.
           ++ intros [? ?]. destruct (Z.eq_dec k (ok_cnt + 1)) as [->|?];
                [by left|right; lia].
        -- rewrite elem_of_nil. split.
           ++ intros [[]|?]. lia.
           ++ intros [? ?]. right. split; [|done].
              destruct (Z.eq_dec k (ok_cnt + 1)) as [->|?]; [done|lia].
    + destruct (IH ok_cnt (fail_cnt + 1)) as (IH1 & IH2 & IH3).
      split; [|split].
      * intros e [->|Hin]%elem_of_cons; [left; eauto|by apply IH1].
      * intros k. rewrite elem_of_cons, IH2. split.
        -- intros [Heq|?]; [|lia]. simplify_eq. unfold count_fail. lia.
        -- intros ?. destruct (Z.eq_dec k (fail_cnt + 1)) as [->|?];
             [by left|right; lia].
      * intros k. rewrite elem_of_cons, IH3. split.
        -- intros [?|?]; [done|lia].
        -- intros ?. right. lia.
Qed.

(** X18. The collection loop returns the numbers of results that are
    [True] and [False], changes nothing in the file system, and prints
    progress lines only: one for each failure, carrying the running
    count of failures from 1 up, and one whenever the count of successes
    reaches a multiple of 1000. *)
Theorem collect_prints_progress total bs w :
  ∃ evs,
    collect total (Ok <$> bs) 0 0 w
    = (Ok (count_ok bs, count_fail bs), World (fs w) (trace w ++ evs))
    ∧ (∀ e, e ∈ evs → (∃ k, e = PrintFail k) ∨ (∃ k, e = PrintProgress k total))
    ∧ (∀ k, PrintFail k ∈ evs ↔ 1 ≤ k ≤ count_fail bs)
    ∧ (∀ k, PrintProgress k total ∈ evs ↔ 1 ≤ k ≤ count_ok bs ∧ k mod 1000 = 0).
Proof.
  exists (progress_events total bs 0 0). rewrite collect_spec, !Z.add_0_l.
  split; [done|].
  destruct (progress_events_lines total bs 0 0) as (H1 & H2 & H3).
  split; [done|]. split; intros k; [rewrite H2|rewrite H3]; lia.
Qed.

End Properties.

(** * Concrete runs *)

Local Open Scope Z_scope.

(** The scenario of the specification: two work items, both resized. *)
Example scenario_run :
  let r := Toy.resize_image_dir [] "/src" "/dst" 160 Toy.scenario in
  r.1 = Ok true
  ∧ trace r.2
    = [PrintTotal 2;
       CallImread "/src/a.jpg"; CallResize 160 80; CallImwrite "/dst/a.jpg";
       CallImread "/src/b.png"; CallResize 80 160; CallImwrite "/dst/b.png";
       PrintFinished 2 0].
Proof. split; vm_compute; reflexivity. Qed.

(** One image, one file without data, one directory: two failures, and
    the run still returns [True]. *)
Example mixed_run :
  let r := Toy.resize_image_dir [2%nat; 0%nat] "/src" "/dst" 160 Toy.mixed in
  r.1 = Ok true
  ∧ trace r.2
    = [PrintTotal 3;
       PrintFileNotExist "/src/dir.png";
       CallImread "/src/a.jpg"; CallResize 160 80; CallImwrite "/dst/a.jpg";
       CallImread "/src/bad.jpg"; PrintResizeFailed "/src/bad.jpg" AttributeError;
       PrintFail 1; PrintFail 2; PrintFinished 1 2].
Proof. split; vm_compute; reflexivity. Qed.

(** A write that fails without raising: the task counts as a success,
    no file appears, and the next run finds the same work item again. *)
Example silent_write_failure :
  let r := Toy.resize_image_dir [] "/src" "/dst" 160 Toy.blocked in
  r.1 = Ok true
  ∧ fs r.2 = fs Toy.blocked
  ∧ trace r.2
    = [PrintTotal 1;
       CallImread "/src/a.jpg"; CallResize 160 80; CallImwrite "/dst/a.jpg";
       PrintFinished 1 0]
  ∧ work_items (fs r.2) "/src" "/dst" (entries (fs r.2) "/src")
    = [("/src/a.jpg", "/dst/a.jpg")].
Proof. repeat split; vm_compute; reflexivity. Qed.

(** ** The theorems at concrete worlds *)

Lemma source_missing_witness :
  is_file (fs Toy.scenario) "/src/gone.jpg" = false
  ∧ Toy.resize_image "/src/gone.jpg" "/dst/gone.jpg" 160 Toy.scenario
    = (Ok false,
       World (fs Toy.scenario)
         (trace Toy.scenario ++ [PrintFileNotExist "/src/gone.jpg"])).
Proof.
  split; [vm_compute; reflexivity|].
  apply source_missing_returns_false. vm_compute. reflexivity.
Defined.

Lemma failures_witness :
  fs Toy.mixed !! "/src/bad.jpg" = Some (File [])
  ∧ Toy.imdecode [] = None
  ∧ Toy.resize_image "/src/bad.jpg" "/dst/bad.jpg" 160 Toy.mixed
    = (Ok false,
       World (fs Toy.mixed)
         (trace Toy.mixed
          ++ [CallImread "/src/bad.jpg";
              PrintResizeFailed "/src/bad.jpg" AttributeError])).
Proof.
  split; [vm_compute; reflexivity|]. split; [reflexivity|].
  apply (proj1 (proj2 (proj2
           (failures_are_caught_and_counted Toy.imdecode Toy.resample Toy.imencode
              Toy.has_encoder "/src/bad.jpg" "/dst/bad.jpg" 160 Toy.mixed)))
           []).
  - vm_compute. reflexivity.
  - reflexivity.
Defined.

Lemma returns_true_witness :
  is_dir (fs Toy.mixed) "/src" = true
  ∧ creatable (fs Toy.mixed) "/dst"
  ∧ ∃ w', Toy.resize_image_dir [] "/src" "/dst" 160 Toy.mixed = (Ok true, w').
Proof.
  assert (is_dir (fs Toy.mixed) "/src" = true) as Hsrc by (vm_compute; reflexivity).
  assert (creatable (fs Toy.mixed) "/dst") as Hdst.
  { right. split; [discriminate|]. vm_compute. reflexivity. }
  split; [exact Hsrc|]. split; [exact Hdst|].
  exact (proj1 (proj2
           (returns_true_unless_source_missing Toy.imdecode Toy.resample
              Toy.imencode Toy.has_encoder [] "/src" "/dst" 160 Toy.mixed))
           Hsrc Hdst).
Defined.

Lemma counters_witness :
  is_dir (fs Toy.mixed) "/src" = true
  ∧ creatable (fs Toy.mixed) "/dst"
  ∧ ∃ w2 evs k,
      Toy.resize_image_dir [] "/src" "/dst" 160 Toy.mixed = (Ok true, w2)
      ∧ trace w2 = evs ++ [PrintFinished (3 - k) k].
Proof.
  assert (is_dir (fs Toy.mixed) "/src" = true) as Hsrc by (vm_compute; reflexivity).
  assert (creatable (fs Toy.mixed) "/dst") as Hdst.
  { right. split; [discriminate|]. vm_compute. reflexivity. }
  split; [exact Hsrc|]. split; [exact Hdst|].
  destruct (counters_add_up Toy.imdecode Toy.resample Toy.imencode Toy.has_encoder
              [] "/src" "/dst" 160 Toy.mixed Hsrc Hdst)
    as (bs & w1 & _ & _ & _ & w2 & evs & Hrun & Htrace & _).
  { vm_compute. discriminate. }
  exists w2, evs, (count_fail bs). split; [exact Hrun|exact Htrace].
Defined.

Lemma image_extensions_witness :
  ∃ items,
    scan "/src" "/dst" ["a.jpg"; "notes.txt"; "B.JPG"; "c.jpeg"] [] Toy.scenario
    = (Ok items, Toy.scenario)
    ∧ ("/src/c.jpeg", "/dst/c.jpeg") ∈ items
    ∧ is_image_name "notes.txt" = false
    ∧ is_image_name "B.JPG" = false.
Proof.
  destruct (only_image_extensions_enumerated "/src" "/dst"
              ["a.jpg"; "notes.txt"; "B.JPG"; "c.jpeg"] Toy.scenario)
    as (items & Hscan & _ & Hall & _ & Hnot).
  exists items. split; [exact Hscan|]. split.
  - apply (Hall "c.jpeg").
    + apply list_elem_of_In. simpl. tauto.
    + right. right. reflexivity.
    + vm_compute. reflexivity.
  - split; [exact (proj1 (Hnot "notes"))|exact (proj1 (proj2 (Hnot "B")))].
Defined.

Lemma directory_entry_witness :
  is_dir (fs Toy.mixed) "/src" = true
  ∧ fs Toy.mixed !! join "/src" "dir.png" = Some Dir
  ∧ ∃ w2 evs ok_cnt fail_cnt,
      Toy.resize_image_dir [] "/src" "/dst" 160 Toy.mixed = (Ok true, w2)
      ∧ trace w2 = evs ++ [PrintFinished ok_cnt fail_cnt]
      ∧ 1 ≤ fail_cnt.
Proof.
  assert (is_dir (fs Toy.mixed) "/src" = true) as Hsrc by (vm_compute; reflexivity).
  assert (fs Toy.mixed !! join "/src" "dir.png" = Some Dir) as Hdir
    by (vm_compute; reflexivity).
  split; [exact Hsrc|]. split; [exact Hdir|].
  apply (directory_entry_is_a_counted_failure Toy.imdecode Toy.resample Toy.imencode
           Toy.has_encoder [] "/src" "/dst" "dir.png" 160 Toy.mixed).
  - exact Hsrc.
  - right. split; [discriminate|]. vm_compute. reflexivity.
  - split; [discriminate|reflexivity].
  - exact Hdir.
  - vm_compute. reflexivity.
  - vm_compute. reflexivity.
Defined.

(** A subdirectory named [.jpg] ends in [.jpg], but [splitext] gives it
    no extension: the scan skips it, and no failure is counted. *)
Lemma hidden_directory_is_skipped :
  let m0 := prepared (fs Toy.hidden) "/dst" in
  let r := Toy.resize_image_dir [] "/src" "/dst" 160 Toy.hidden in
  ends_with ".jpg" ".jpg" = true
  ∧ fs Toy.hidden !! join "/src" ".jpg" = Some Dir
  ∧ is_file (fs Toy.hidden) (join "/dst" ".jpg") = false
  ∧ ¬ (join "/src" ".jpg", join "/dst" ".jpg")
      ∈ work_items m0 "/src" "/dst" (entries m0 "/src")
  ∧ r.1 = Ok true
  ∧ trace r.2 = [PrintNoImage].
Proof.
  repeat split; try (vm_compute; reflexivity).
  intros H. vm_compute in H. by apply elem_of_nil in H.
Qed.

Lemma second_run_witness :
  let w1 := (Toy.resize_image_dir [] "/src" "/dst" 160 Toy.scenario).2 in
  Toy.resize_image_dir [] "/src" "/dst" 160 Toy.scenario = (Ok true, w1)
  ∧ Toy.resize_image_dir [1%nat] "/src" "/dst" 160 w1
    = (Ok true, World (fs w1) (trace w1 ++ [PrintNoImage])).
Proof.
  intros w1.
  assert (Toy.resize_image_dir [] "/src" "/dst" 160 Toy.scenario = (Ok true, w1))
    as Hrun by (vm_compute; reflexivity).
  split; [exact Hrun|].
  apply (second_run_has_nothing_to_do Toy.imdecode Toy.resample Toy.imencode
           Toy.has_encoder [] [1%nat] "/src" "/dst" 160 Toy.scenario w1 Hrun).
  vm_compute. reflexivity.
Defined.

Lemma scale_formula_witness :
  (0 < 300 < 2 ^ 53 ∧ 0 < 200 < 2 ^ 53 ∧ Z.abs 160 < 2 ^ 53)
  ∧ scale 300 200 160 = Ok (160, 106).
Proof.
  assert (0 < 300 < 2 ^ 53) as Hw by lia.
  assert (0 < 200 < 2 ^ 53) as Hh by lia.
  assert (Z.abs 160 < 2 ^ 53) as HE by lia.
  split; [done|].
  rewrite (proj1 (scale_follows_the_formula Toy.imdecode Toy.resample Toy.imencode
                    Toy.has_encoder 300 200 160 Hw Hh HE)).
  vm_compute. reflexivity.
Defined.

Lemma scaled_size_witness :
  (0 < 400 ∧ 0 < 100 ∧ 0 < 163 ∧ 163 * Z.max 400 100 ≤ max_area)
  ∧ ∃ new_w new_h,
      scale 400 100 163 = Ok (new_w, new_h)
      ∧ Z.max new_w new_h = 163
      ∧ Z.abs (new_h * 400 - new_w * 100) ≤ 400.
Proof.
  assert (0 < 400) as Hw by lia.
  assert (0 < 100) as Hh by lia.
  assert (0 < 163) as HE by lia.
  assert (163 * Z.max 400 100 ≤ max_area) as Harea by (unfold max_area; lia).
  split; [done|].
  destruct (scaled_size_within_tolerance 400 100 163 Hw Hh HE Harea)
    as (new_w & new_h & Hs & Hmax & _ & _ & Hwide & _).
  exists new_w, new_h. split; [exact Hs|]. split; [exact Hmax|].
  apply Hwide. lia.
Defined.

(** ** Further theorems at concrete worlds *)


(** An image of 200 x 1 pixels cannot be resized to 100. *)
Lemma rejects_elongated_image_witness :
  (Toy.resize_image "/src/line.png" "/dst/line.png" 100 Toy.thin).1 = Ok false.
Proof.
  destruct (resize_image_rejects_elongated_image Toy.imdecode Toy.resample
              Toy.imencode Toy.has_encoder "/src/line.png" "/dst/line.png" 100
              Toy.thin [Toy.byte_of 200; Toy.byte_of 1] (Image 1 200 3 []))
    as (new_w & new_h & _ & _ & Hrun).
  - vm_compute. reflexivity.
  - vm_compute. reflexivity.
  - reflexivity.
  - reflexivity.
  - reflexivity.
  - vm_compute. discriminate.
  - reflexivity.
  - unfold Toy.resize_image. rewrite Hrun. reflexivity.
Defined.

Lemma rejects_bad_target_witness :
  ∃ evs,
    Toy.resize_image "/src/a.jpg" "/dst/a.jpg" 0 Toy.scenario
    = (Ok false, World (fs Toy.scenario) (trace Toy.scenario ++ evs)).
Proof.
  destruct (resize_image_rejects_bad_target Toy.imdecode Toy.resample Toy.imencode
              Toy.has_encoder "/src/a.jpg" "/dst/a.jpg" 0 Toy.scenario)
    as (evs & Hrun & _).
  - left. vm_compute. discriminate.
  - exists evs. exact Hrun.
Defined.

Lemma square_image_witness : scale 64 64 160 = Ok (160, 160).
Proof.
  apply square_image_scales_exactly.
  - split; reflexivity.
  - reflexivity.
Defined.

Lemma destination_directory_witness :
  is_dir (fs (Toy.resize_image_dir [] "/src" "/dst" 160 Toy.scenario).2) "/dst" = true.
Proof.
  apply (destination_directory_after_run Toy.imdecode Toy.resample Toy.imencode
           Toy.has_encoder [] "/src" "/dst" 160 Toy.scenario true
           (Toy.resize_image_dir [] "/src" "/dst" 160 Toy.scenario).2).
  - vm_compute. reflexivity.
  - reflexivity.
Defined.

(** The destination path is the text file of the scenario. *)
Lemma destination_taken_witness :
  Toy.resize_image_dir [] "/src" "/src/notes.txt" 160 Toy.scenario
  = (Raise FileExistsError, Toy.scenario).
Proof.
  apply (proj1 (destination_not_a_directory_raises Toy.imdecode Toy.resample
                  Toy.imencode Toy.has_encoder [] "/src" "/src/notes.txt" 160
                  Toy.scenario ltac:(vm_compute; reflexivity)) []).
  - vm_compute. reflexivity.
  - discriminate.
Defined.

Lemma in_place_run_witness :
  ∃ evs,
    Toy.resize_image_dir [] "/src" "/src" 160 Toy.mixed
    = (Ok true, World (fs Toy.mixed) (trace Toy.mixed ++ evs))
    ∧ ∀ p, CallImread p ∉ evs.
Proof.
  destruct (in_place_run_writes_nothing Toy.imdecode Toy.resample Toy.imencode
              Toy.has_encoder [] "/src" 160 Toy.mixed)
    as (evs & Hrun & Hread & _).
  - vm_compute. reflexivity.
  - exists evs. split; [exact Hrun|exact Hread].
Defined.

Lemma bad_target_batch_witness :
  ∃ evs,
    trace (Toy.resize_image_dir [] "/src" "/dst" 0 Toy.scenario).2
    = evs ++ [PrintFinished 0 2].
Proof.
  destruct (bad_target_fails_every_item Toy.imdecode Toy.resample Toy.imencode
              Toy.has_encoder [] "/src" "/dst" 0 Toy.scenario)
    as (evs & Hrun).
  - vm_compute. reflexivity.
  - right. split; [discriminate|]. vm_compute. reflexivity.
  - left. vm_compute. discriminate.
  - vm_compute. discriminate.
  - exists (trace Toy.scenario ++ evs).
    unfold Toy.resize_image_dir. rewrite Hrun. cbn [snd trace].
    rewrite <- app_assoc. reflexivity.
Defined.


(** The destination of the image is taken by a directory. *)
Lemma write_not_done_witness :
  Toy.resize_image "/src/a.jpg" "/dst/a.jpg" 160 Toy.blocked
  = (Ok true,
     World (fs Toy.blocked)
       (trace Toy.blocked
        ++ [CallImread "/src/a.jpg"; CallResize 160 80; CallImwrite "/dst/a.jpg"])).
Proof.
  apply (proj1 (resize_image_write_not_done Toy.imdecode Toy.resample Toy.imencode
                  Toy.has_encoder "/src/a.jpg" "/dst/a.jpg" 160 Toy.blocked
                  [Toy.byte_of 200; Toy.byte_of 100] (Image 100 200 3 []) 160 80
                  ltac:(vm_compute; reflexivity) ltac:(vm_compute; reflexivity)
                  ltac:(vm_compute; reflexivity)
                  ltac:(split; [reflexivity|vm_compute; discriminate])
                  ltac:(split; [reflexivity|vm_compute; discriminate]))).
  - vm_compute. reflexivity.
  - vm_compute. reflexivity.
Defined.

(** After the mixed run the zero-byte file and the directory are still
    to do, the image is not. *)
Lemma next_run_witness :
  ∃ w',
    Toy.resize_image_dir [] "/src" "/dst" 160 Toy.mixed = (Ok true, w')
    ∧ ("/src/bad.jpg", "/dst/bad.jpg")
      ∈ work_items (fs w') "/src" "/dst" (entries (fs w') "/src").
Proof.
  destruct (next_run_retries_what_failed Toy.imdecode Toy.resample Toy.imencode
              Toy.has_encoder [] "/src" "/dst" 160 Toy.mixed)
    as (w' & Hrun & Hitems).
  - vm_compute. reflexivity.
  - right. split; [discriminate|]. vm_compute. reflexivity.
  - vm_compute. discriminate.
  - exists w'. split; [exact Hrun|].
    apply Hitems. split.
    + apply list_elem_of_In. vm_compute. tauto.
    + unfold Toy.resize_image_dir in Hrun.
      assert (w' = (resize_image_dir Toy.imdecode Toy.resample Toy.imencode
                      Toy.has_encoder [] "/src" "/dst" 160 Toy.mixed).2) as ->
        by (by rewrite Hrun).
      vm_compute. reflexivity.
Defined.

Lemma usage_witness :
  Toy.main [] "/home/u/resize_image.py" ["resize_image.py"] Toy.scenario
  = (Ok (),
     World (fs Toy.scenario)
       (trace Toy.scenario ++ [PrintUsage; PrintExample "/home/u/small_image"])).
Proof.
  apply (usage_for_at_most_one_argument Toy.imdecode Toy.resample Toy.imencode
           Toy.has_encoder Toy.realpath [] "/home/u/resize_image.py"
           ["resize_image.py"] Toy.scenario).
  simpl. lia.
Defined.
